(** * MIPSolver: the problem model, the LP relaxation heuristic and the
      branch-and-bound driver, embedded in Rocq.

    Sources embedded here:
    - [core.h]                 (Variable, Constraint, Problem)
    - [simplex_solver.h]       (SimplexSolver)
    - [branch_bound_solver.h]  (BranchBoundSolver)

    Numbers.  The program computes on C++ [double]s.  A [double] is
    modelled as an extended rational: the three special values of
    IEEE-754 (NaN, -inf, +inf) keep their arithmetic and their comparison
    rules, finite values are exact rationals.  Rounding error, overflow
    and the sign of zero are therefore outside the model.  The concrete
    problems used below are built from dyadic rationals on which the
    binary64 operations of the program are exact; where a decimal literal
    of the program (0.1, 1e-6, 1e-9) enters a comparison there, the two
    sides are either far apart or the same literal. *)

From Stdlib Require Import QArith Qabs Qround ZArith List Bool String Lia Lqa.
From stdpp Require Import base list gmap.

Local Open Scope Z_scope.

(** ** Doubles *)

Module Dbl.

Inductive double : Type :=
  | NaN
  | NInf
  | Fin (q : Q)
  | PInf.

#[global] Instance double_inhabited : Inhabited double := populate (Fin 0).

Definition Qltb (a b : Q) : bool := negb (Qle_bool b a).

(** Finite results are kept in lowest terms. *)
Definition fin (q : Q) : double := Fin (Qred q).

Definition dopp (x : double) : double :=
  match x with
  | NaN => NaN
  | NInf => PInf
  | PInf => NInf
  | Fin a => fin (- a)
  end.

Definition dadd (x y : double) : double :=
  match x, y with
  | NaN, _ | _, NaN => NaN
  | PInf, NInf | NInf, PInf => NaN
  | PInf, _ | _, PInf => PInf
  | NInf, _ | _, NInf => NInf
  | Fin a, Fin b => fin (a + b)
  end.

Definition dsub (x y : double) : double := dadd x (dopp y).

(** Sign of a finite value, as needed by the products and quotients with
    an infinity: [Lt] negative, [Eq] zero, [Gt] positive. *)
Definition sgn (a : Q) : comparison := (a ?= 0)%Q.

Definition dmul (x y : double) : double :=
  match x, y with
  | NaN, _ | _, NaN => NaN
  | Fin a, Fin b => fin (a * b)
  | PInf, PInf | NInf, NInf => PInf
  | PInf, NInf | NInf, PInf => NInf
  | PInf, Fin a | Fin a, PInf =>
      match sgn a with Lt => NInf | Eq => NaN | Gt => PInf end
  | NInf, Fin a | Fin a, NInf =>
      match sgn a with Lt => PInf | Eq => NaN | Gt => NInf end
  end.

Definition ddiv (x y : double) : double :=
  match x, y with
  | NaN, _ | _, NaN => NaN
  | (PInf | NInf), (PInf | NInf) => NaN
  | Fin _, (PInf | NInf) => Fin 0
  | PInf, Fin b => match sgn b with Lt => NInf | _ => PInf end
  | NInf, Fin b => match sgn b with Lt => PInf | _ => NInf end
  | Fin a, Fin b =>
      match sgn b with
      | Eq => match sgn a with Lt => NInf | Eq => NaN | Gt => PInf end
      | _ => fin (a / b)
      end
  end.

(** [std::abs] *)
Definition dabs (x : double) : double :=
  match x with
  | NaN => NaN
  | NInf | PInf => PInf
  | Fin a => fin (Qabs a)
  end.

(** Comparisons: every comparison with NaN is false. *)
Definition dlt (x y : double) : bool :=
  match x, y with
  | NaN, _ | _, NaN => false
  | _, NInf => false
  | NInf, _ => true
  | PInf, _ => false
  | _, PInf => true
  | Fin a, Fin b => Qltb a b
  end.

Definition dle (x y : double) : bool :=
  match x, y with
  | NaN, _ | _, NaN => false
  | NInf, _ => true
  | _, PInf => true
  | _, NInf => false
  | PInf, _ => false
  | Fin a, Fin b => Qle_bool a b
  end.

Definition dgt (x y : double) : bool := dlt y x.
Definition dge (x y : double) : bool := dle y x.

(** [==] on doubles *)
Definition deqb (x y : double) : bool :=
  match x, y with
  | NInf, NInf | PInf, PInf => true
  | Fin a, Fin b => Qeq_bool a b
  | _, _ => false
  end.

(** [std::max(a, b)] is [(a < b) ? b : a]; [std::min(a, b)] is
    [(b < a) ? b : a]. *)
Definition dmax (a b : double) : double := if dlt a b then b else a.
Definition dmin (a b : double) : double := if dlt b a then b else a.

Definition disinf (x : double) : bool :=
  match x with NInf | PInf => true | _ => false end.

Definition disnan (x : double) : bool :=
  match x with NaN => true | _ => false end.

Definition dfloor (x : double) : double :=
  match x with
  | Fin a => Fin (inject_Z (Qfloor a))
  | _ => x
  end.

Definition dceil (x : double) : double :=
  match x with
  | Fin a => Fin (inject_Z (Qceiling a))
  | _ => x
  end.

(** [std::round]: nearest integer, halfway cases away from zero. *)
Definition Qround_half_away (a : Q) : Z :=
  if Qle_bool 0 a then Qfloor (a + (1 # 2)) else Qceiling (a - (1 # 2)).

Definition dround (x : double) : double :=
  match x with
  | Fin a => Fin (inject_Z (Qround_half_away a))
  | _ => x
  end.


End Dbl.

Import Dbl.

Declare Scope dbl_scope.
Delimit Scope dbl_scope with D.
Bind Scope dbl_scope with double.
Infix "+" := dadd : dbl_scope.
Infix "-" := dsub : dbl_scope.
Infix "*" := dmul : dbl_scope.
Infix "/" := ddiv : dbl_scope.
Infix "<?" := dlt : dbl_scope.
Infix "<=?" := dle : dbl_scope.
Infix ">?" := dgt : dbl_scope.
Infix ">=?" := dge : dbl_scope.

Local Open Scope dbl_scope.

(** The numeric literals of the sources. *)
Definition d0 : double := Fin 0.
Definition d1 : double := Fin 1.
Definition d100 : double := Fin 100.
Definition d1e_9 : double := Fin (1 # 1000000000).
Definition d1e_6 : double := Fin (1 # 1000000).
Definition d0_1 : double := Fin (1 # 10).

(** [std::vector<double>] indexed by an [int] that the caller has checked
    to be in range. *)
Abbreviation vec := (list double).

Definition vget (s : vec) (i : Z) : double := s !!! Z.to_nat i.
Definition vset (s : vec) (i : Z) (v : double) : vec := <[Z.to_nat i := v]> s.

(** [var_idx < solution.size()] compares an [int] with a [size_t]: the
    [int] is converted to unsigned, so a negative index is never below the
    size. *)
Definition in_range (i : Z) (s : vec) : bool :=
  (0 <=? i)%Z && (i <? Z.of_nat (length s))%Z.

(** ** core.h: the problem model *)

Inductive VariableType := CONTINUOUS | INTEGER | BINARY.
Inductive ConstraintType := LESS_EQUAL | GREATER_EQUAL | EQUAL.
Inductive ObjectiveType := MAXIMIZE | MINIMIZE.

(** class Variable *)
Record Variable_ : Type := mkVariable {
  name_ : string;
  type_ : VariableType;
  lower_bound_ : double;
  upper_bound_ : double;
  coefficient_ : double
}.

Definition newVariable (name : string) (type : VariableType) : Variable_ :=
  mkVariable name type NInf PInf d0.

Definition setBounds (v : Variable_) (lower upper : double) : Variable_ :=
  mkVariable (name_ v) (type_ v) lower upper (coefficient_ v).

Definition setCoefficient (v : Variable_) (coeff : double) : Variable_ :=
  mkVariable (name_ v) (type_ v) (lower_bound_ v) (upper_bound_ v) coeff.

#[global] Instance Variable_inhabited : Inhabited Variable_ :=
  populate (newVariable EmptyString CONTINUOUS).

(** class Constraint.  [coefficients_] is a [std::unordered_map<int,double>]:
    a finite map with one coefficient per key.  Loops over the map follow
    the order of [map_to_list]. *)
Record Constraint : Type := mkConstraint {
  cname_ : string;
  ctype_ : ConstraintType;
  rhs_ : double;
  coefficients_ : gmap Z double
}.

(** [Constraint::addVariable]: [coefficients_[var_index] = coeff] *)
Definition addVariableTerm (c : Constraint) (var_index : Z) (coeff : double)
  : Constraint :=
  mkConstraint (cname_ c) (ctype_ c) (rhs_ c)
               (<[var_index := coeff]> (coefficients_ c)).

(** The left-hand side loop shared by [Constraint::isSatisfied] and
    [SimplexSolver::satisfyConstraints]. *)
Definition lhs_of (coeffs : gmap Z double) (solution : vec) : double :=
  fold_left
    (fun lhs '(var_index, coeff) =>
       if in_range var_index solution
       then lhs + coeff * vget solution var_index
       else lhs)
    (map_to_list coeffs) d0.

Definition isSatisfied (c : Constraint) (solution : vec) : bool :=
  let lhs := lhs_of (coefficients_ c) solution in
  match ctype_ c with
  | LESS_EQUAL => lhs <=? rhs_ c + d1e_9
  | GREATER_EQUAL => lhs >=? rhs_ c - d1e_9
  | EQUAL => dabs (lhs - rhs_ c) <? d1e_9
  end.

#[global] Instance Constraint_inhabited : Inhabited Constraint :=
  populate (mkConstraint EmptyString LESS_EQUAL d0 ∅).

(** class Problem *)
Record Problem : Type := mkProblem {
  pname_ : string;
  objective_type_ : ObjectiveType;
  variables_ : list Variable_;
  constraints_ : list Constraint
}.

Definition newProblem (name : string) (objective_type : ObjectiveType)
  : Problem := mkProblem name objective_type [] [].

Definition getNumVariables (p : Problem) : Z := Z.of_nat (length (variables_ p)).
Definition getNumConstraints (p : Problem) : Z :=
  Z.of_nat (length (constraints_ p)).

Definition addVariable (p : Problem) (name : string) (type : VariableType)
  : Problem * Z :=
  (mkProblem (pname_ p) (objective_type_ p)
             (variables_ p ++ [newVariable name type]) (constraints_ p),
   getNumVariables p).

Definition addConstraint (p : Problem) (name : string) (type : ConstraintType)
                         (rhs : double) : Problem * Z :=
  (mkProblem (pname_ p) (objective_type_ p) (variables_ p)
             (constraints_ p ++ [mkConstraint name type rhs ∅]),
   getNumConstraints p).

(** [variables_[index]], for an index the caller keeps in range. *)
Definition getVariable (p : Problem) (index : Z) : Variable_ :=
  variables_ p !!! Z.to_nat index.

Definition with_variables (p : Problem) (vs : list Variable_) : Problem :=
  mkProblem (pname_ p) (objective_type_ p) vs (constraints_ p).

(** Outcome of a call that may signal an error to its caller. *)
Inductive ModelError := InvalidIndex | InvalidValue.
Inductive outcome (A : Type) : Type :=
  | Done (a : A)
  | Raised (e : ModelError).
Arguments Done {A} a.
Arguments Raised {A} e.

(** [Problem::setObjectiveCoefficient]: the index is guarded, the
    coefficient is stored as given, nothing is ever thrown. *)
Definition setObjectiveCoefficient (p : Problem) (var_index : Z)
                                   (coeff : double) : outcome Problem :=
  if (0 <=? var_index)%Z && (var_index <? getNumVariables p)%Z
  then Done (with_variables p
               (<[Z.to_nat var_index :=
                    setCoefficient (getVariable p var_index) coeff]>
                  (variables_ p)))
  else Done p.

(** [p.getVariable(v_idx).setBounds(lower, upper)], as the bindings call
    it.  [getVariable] is [variables_[index]]: [std::vector::operator[]]
    does not check the index, so outside the range the behaviour is
    undefined ([None]); inside, the bounds are stored as given. *)
Definition setVariableBounds (p : Problem) (var_index : Z)
                             (lower upper : double)
  : option (outcome Problem) :=
  if (0 <=? var_index)%Z && (var_index <? getNumVariables p)%Z
  then Some (Done (with_variables p
                     (<[Z.to_nat var_index :=
                          setBounds (getVariable p var_index) lower upper]>
                        (variables_ p))))
  else None.

(** [p.getConstraint(c_idx).addVariable(v_idx, coeff)], as the bindings
    call it.  The constraint index is unchecked as above; the variable
    index is a key of the coefficient map and is not checked against the
    variables at all. *)
Definition addConstraintCoefficient (p : Problem) (constraint_index : Z)
                                    (var_index : Z) (coeff : double)
  : option (outcome Problem) :=
  if (0 <=? constraint_index)%Z && (constraint_index <? getNumConstraints p)%Z
  then
    Some (Done (mkProblem (pname_ p) (objective_type_ p) (variables_ p)
                  (<[Z.to_nat constraint_index :=
                       addVariableTerm
                         (constraints_ p !!! Z.to_nat constraint_index)
                         var_index coeff]> (constraints_ p))))
  else None.

Definition within_bounds (v : Variable_) (x : double) : bool :=
  negb ((x <? lower_bound_ v - d1e_9) || (x >? upper_bound_ v + d1e_9)).

Definition isValidSolution (p : Problem) (solution : vec) : bool :=
  if negb (length solution =? length (variables_ p))%nat then false
  else
    forallb (fun '(v, x) => within_bounds v x)
            (combine (variables_ p) solution)
    && forallb (fun c => isSatisfied c solution) (constraints_ p).

Definition calculateObjectiveValue (p : Problem) (solution : vec) : double :=
  fold_left (fun value '(v, x) => value + coefficient_ v * x)
            (combine (variables_ p) solution) d0.

(** ** simplex_solver.h: the LP relaxation heuristic *)

Record SimplexResult : Type := mkSimplexResult {
  is_optimal : bool;
  is_unbounded : bool;
  is_infeasible : bool;
  solution : vec;
  objective_value : double;
  iterations : Z
}.

(** [objective_value] is left uninitialised on the infeasible exits; no
    caller reads it there. *)
Definition indeterminate : double := NaN.

(** The signed test of one constraint in [satisfyConstraints]:
    [Some violation] when the constraint is violated beyond [tolerance]. *)
Definition violation_of (type : ConstraintType) (lhs rhs tolerance : double)
  : option double :=
  match type with
  | LESS_EQUAL => if lhs >? rhs + tolerance then Some (lhs - rhs) else None
  | GREATER_EQUAL => if lhs <? rhs - tolerance then Some (rhs - lhs) else None
  | EQUAL =>
      if dabs (lhs - rhs) >? tolerance then Some (dabs (lhs - rhs)) else None
  end.

Definition target_change_of (type : ConstraintType) (lhs rhs : double)
  : double :=
  match type with
  | LESS_EQUAL => if lhs >? rhs then rhs - lhs else d0
  | GREATER_EQUAL => if lhs <? rhs then rhs - lhs else d0
  | EQUAL => rhs - lhs
  end.

(** Whether a variable still has room in the direction the repair needs. *)
Definition can_adjust (var : Variable_) (x target_change coeff : double)
  : bool :=
  if target_change * coeff >? d0
  then x <? upper_bound_ var - d1e_9
  else x >? lower_bound_ var + d1e_9.

(** First loop of [fixConstraintViolation]: the adjustable variables, in
    traversal order, and the sum of their absolute coefficients. *)
Definition collect_adjustable (p : Problem) (solution : vec)
    (coeffs : gmap Z double) (target_change : double)
  : list Z * double :=
  fold_left
    (fun '(adjustable_vars, total_weight) '(var_idx, coeff) =>
       if in_range var_idx solution && (dabs coeff >? d1e_9)
       then
         if can_adjust (getVariable p var_idx) (vget solution var_idx)
                       target_change coeff
         then (adjustable_vars ++ [var_idx], total_weight + dabs coeff)
         else (adjustable_vars, total_weight)
       else (adjustable_vars, total_weight))
    (map_to_list coeffs) ([], d0).

(** Body of the second loop of [fixConstraintViolation]; [coeffs.at(var_idx)]
    is the lookup, and every index in [adjustable_vars] is a key. *)
Definition adjust_variable (p : Problem) (coeffs : gmap Z double)
    (target_change total_weight : double) (solution : vec) (var_idx : Z)
  : vec :=
  match coeffs !! var_idx with
  | None => solution
  | Some coeff =>
      let weight := dabs coeff / total_weight in
      let var_change := target_change * weight / coeff in
      let var := getVariable p var_idx in
      let new_value := vget solution var_idx + var_change in
      let new_value :=
        dmax (lower_bound_ var) (dmin (upper_bound_ var) new_value) in
      vset solution var_idx new_value
  end.

(** [fixConstraintViolation], given the constraint that [constraint_idx]
    names. *)
Definition fixConstraintViolation (p : Problem) (solution : vec)
    (constraint : Constraint) (lhs rhs : double) (type : ConstraintType)
  : vec :=
  let coeffs := coefficients_ constraint in
  let target_change := target_change_of type lhs rhs in
  if dabs target_change <? d1e_9 then solution
  else
    let '(adjustable_vars, total_weight) :=
      collect_adjustable p solution coeffs target_change in
    if (match adjustable_vars with [] => true | _ => false end)
       || (total_weight <? d1e_9)
    then solution
    else
      fold_left (adjust_variable p coeffs target_change total_weight)
                adjustable_vars solution.

(** One sweep over the constraints: the running solution, [all_satisfied]
    and [max_violation]. *)
Definition check_constraint (p : Problem)
    (st : vec * bool * double) (constraint : Constraint)
  : vec * bool * double :=
  let '(solution, all_satisfied, max_violation) := st in
  let lhs := lhs_of (coefficients_ constraint) solution in
  let rhs := rhs_ constraint in
  match violation_of (ctype_ constraint) lhs rhs d1e_6 with
  | None => (solution, all_satisfied, max_violation)
  | Some violation =>
      (fixConstraintViolation p solution constraint lhs rhs
                              (ctype_ constraint),
       false, dmax max_violation violation)
  end.

Definition constraint_pass (p : Problem) (solution : vec)
  : vec * bool * double :=
  fold_left (check_constraint p) (constraints_ p) (solution, true, d0).

Inductive repair_exit := AllSatisfied | LargeViolation | Exhausted.

(** The [for (iter ...)] loop of [satisfyConstraints]; [remaining] counts
    the iterations still to run, [iter] is the loop variable. *)
Fixpoint repair_loop (remaining : nat) (iter : Z) (p : Problem)
    (solution : vec) : repair_exit * vec :=
  match remaining with
  | O => (Exhausted, solution)
  | S remaining' =>
      let '(solution', all_satisfied, max_violation) :=
        constraint_pass p solution in
      if all_satisfied then (AllSatisfied, solution')
      else if (iter >? 5)%Z && (max_violation >? d1) then
        (LargeViolation, solution')
      else repair_loop remaining' (iter + 1) p solution'
  end.

Definition MAX_ITERATIONS : nat := 20.

(** The closing measurement of [satisfyConstraints]: the body of its
    loop, then the loop. *)
Definition add_violation (solution : vec) (total_violation : double)
    (constraint : Constraint) : double :=
  let lhs := lhs_of (coefficients_ constraint) solution in
  let rhs := rhs_ constraint in
  match ctype_ constraint with
  | LESS_EQUAL =>
      if lhs >? rhs + d1e_6 then total_violation + (lhs - rhs)
      else total_violation
  | GREATER_EQUAL =>
      if lhs <? rhs - d1e_6 then total_violation + (rhs - lhs)
      else total_violation
  | EQUAL => total_violation + dabs (lhs - rhs)
  end.

Definition total_violation (p : Problem) (solution : vec) : double :=
  fold_left (add_violation solution) (constraints_ p) d0.

Definition satisfyConstraints (p : Problem) (solution : vec) : bool * vec :=
  match repair_loop MAX_ITERATIONS 0 p solution with
  | (AllSatisfied, s) => (true, s)
  | (LargeViolation, s) => (false, s)
  | (Exhausted, s) => (total_violation p s <? d0_1, s)
  end.

(** Initial value of one variable in [solveLPWithBounds]. *)
Definition replace_infinite (x : double) : double :=
  if disinf x then (if x >? d0 then d100 else d0) else x.

Definition initial_value (objective_type : ObjectiveType) (var : Variable_)
  : double :=
  if dabs (lower_bound_ var - upper_bound_ var) <? d1e_9
  then lower_bound_ var
  else
    let coeff := coefficient_ var in
    replace_infinite
      match objective_type with
      | MAXIMIZE =>
          if coeff >? d0 then upper_bound_ var else lower_bound_ var
      | MINIMIZE =>
          if coeff >? d0 then lower_bound_ var else upper_bound_ var
      end.

Definition has_infeasible_bounds (var : Variable_) : bool :=
  lower_bound_ var >? upper_bound_ var + d1e_9.

Definition solveLPWithBounds (p : Problem) : SimplexResult :=
  let n := length (variables_ p) in
  if existsb has_infeasible_bounds (variables_ p)
  then mkSimplexResult true false true (replicate n d0) indeterminate 1
  else
    let initial := map (initial_value (objective_type_ p)) (variables_ p) in
    match satisfyConstraints p initial with
    | (false, s) => mkSimplexResult true false true s indeterminate 1
    | (true, s) =>
        mkSimplexResult true false false s (calculateObjectiveValue p s) 1
    end.

Definition solveLPRelaxation (p : Problem) : SimplexResult :=
  solveLPWithBounds p.

(** ** solution.h *)

Inductive Status :=
  | OPTIMAL | INFEASIBLE | UNBOUNDED | TIME_LIMIT | ITERATION_LIMIT | UNKNOWN.

(** Modelled from the spec: [solution.h] (class [Solution] and its setters)
    is not among the sources.  A Solution packages a status, a value vector
    aligned to the variable indices, an objective value and the number of
    nodes processed; the wall-clock solve time is not modelled.
    [Solution(n)] starts with [n] zero values. *)
Record Solution : Type := mkSolution {
  status : Status;
  values : vec;
  sol_objective_value : double;
  sol_iterations : Z
}.

Definition newSolution (n : nat) : Solution :=
  mkSolution UNKNOWN (replicate n d0) d0 0.

Definition setStatus (s : Solution) (st : Status) : Solution :=
  mkSolution st (values s) (sol_objective_value s) (sol_iterations s).

Definition setValue (s : Solution) (i : nat) (v : double) : Solution :=
  mkSolution (status s) (<[i := v]> (values s)) (sol_objective_value s)
             (sol_iterations s).

Definition setObjectiveValue (s : Solution) (v : double) : Solution :=
  mkSolution (status s) (values s) v (sol_iterations s).

Definition setIterations (s : Solution) (n : Z) : Solution :=
  mkSolution (status s) (values s) (sol_objective_value s) n.

(** ** branch_bound_solver.h *)

Record BBNode : Type := mkBBNode {
  problem : Problem;
  bound : double;
  depth : Z
}.

Definition shouldPrune (node_bound best_objective : double)
                       (obj_type : ObjectiveType) : bool :=
  let tolerance := d1e_6 in
  match obj_type with
  | MINIMIZE => node_bound >=? best_objective - tolerance
  | MAXIMIZE => node_bound <=? best_objective + tolerance
  end.

Definition isBetterSolution (new_obj current_best : double)
                            (obj_type : ObjectiveType) : bool :=
  let tolerance := d1e_6 in
  match obj_type with
  | MINIMIZE => new_obj <? current_best - tolerance
  | MAXIMIZE => new_obj >? current_best + tolerance
  end.

Definition is_integral_type (t : VariableType) : bool :=
  match t with INTEGER | BINARY => true | CONTINUOUS => false end.

(** [|val - round(val)|] *)
Definition fractional_part (val : double) : double :=
  dabs (val - dround val).

Definition isIntegerFeasible (sol : vec) (p : Problem) : bool :=
  forallb
    (fun '(var, val) =>
       negb (is_integral_type (type_ var)
             && (fractional_part val >? d1e_6)))
    (combine (variables_ p) sol).

(** The loop of [findBranchingVariable] from index [i] on, with the
    running [branch_var] and [max_fractional]. *)
Fixpoint findBranchingVariable_from (vars : list Variable_) (sol : vec)
    (i : Z) (branch_var : Z) (max_fractional : double) : Z :=
  match vars, sol with
  | var :: vars', val :: sol' =>
      if is_integral_type (type_ var)
         && ((fractional_part val >? d1e_6)
             && (fractional_part val >? max_fractional))
      then findBranchingVariable_from vars' sol' (i + 1) i
                                      (fractional_part val)
      else findBranchingVariable_from vars' sol' (i + 1) branch_var
                                      max_fractional
  | _, _ => branch_var
  end.

Definition findBranchingVariable (sol : vec) (p : Problem) : Z :=
  findBranchingVariable_from (variables_ p) sol 0 (-1) d0.

(** [addBound]: the new bounds are intersected with the current ones. *)
Definition addBound (p : Problem) (var_index : Z) (lower upper : double)
  : Problem :=
  let var := getVariable p var_index in
  let current_lower := lower_bound_ var in
  let current_upper := upper_bound_ var in
  let new_lower := dmax current_lower lower in
  let new_upper := dmin current_upper upper in
  with_variables p
    (<[Z.to_nat var_index := setBounds var new_lower new_upper]>
       (variables_ p)).

(** What happened to a node; this is the information the verbose log of
    [solve] prints for it. *)
Inductive node_outcome :=
  | LPInfeasible
  | BoundPruned
  | IntegerFeasible (updated : bool)
  | NoFractional
  | Branched (branch_var : Z) (branch_value : double).

Record log_entry : Type := mkLogEntry {
  log_node : BBNode;
  log_lp : SimplexResult;
  log_best_before : double;
  log_outcome : node_outcome
}.

(** The local variables of [solve].  [node_stack] is a [std::vector] used
    as a stack: its head is [back()]. *)
Record bb_state : Type := mkState {
  node_stack : list BBNode;
  best_objective : double;
  best_solution : vec;
  nodes_processed : Z;
  nodes_pruned : Z;
  log : list log_entry
}.

Definition left_child_of (current_node : BBNode) (lp : SimplexResult)
    (branch_var : Z) (branch_value : double) : BBNode :=
  mkBBNode (addBound (problem current_node) branch_var NInf
                     (dfloor branch_value))
           (objective_value lp) (depth current_node + 1).

Definition right_child_of (current_node : BBNode) (lp : SimplexResult)
    (branch_var : Z) (branch_value : double) : BBNode :=
  mkBBNode (addBound (problem current_node) branch_var
                     (dceil branch_value) PInf)
           (objective_value lp) (depth current_node + 1).

Inductive step_result :=
  | Continue (st : bb_state)
  | ReturnUnbounded.

Definition record_outcome (st : bb_state) (node : BBNode)
    (lp : SimplexResult) (o : node_outcome) : list log_entry :=
  log st ++ [mkLogEntry node lp (best_objective st) o].

(** The body of the [while] loop of [solve] once [current_node] has been
    popped and [nodes_processed] incremented ([st] is the state after
    both). *)
Definition process_node (p : Problem) (st : bb_state) (current_node : BBNode)
  : step_result :=
  let lp_result := solveLPRelaxation (problem current_node) in
  let note := record_outcome st current_node lp_result in
  if is_infeasible lp_result then
    Continue (mkState (node_stack st) (best_objective st) (best_solution st)
                      (nodes_processed st) (nodes_pruned st + 1)
                      (note LPInfeasible))
  else if is_unbounded lp_result
          && match objective_type_ p with MINIMIZE => true | _ => false end
  then ReturnUnbounded
  else if shouldPrune (objective_value lp_result) (best_objective st)
                      (objective_type_ p) then
    Continue (mkState (node_stack st) (best_objective st) (best_solution st)
                      (nodes_processed st) (nodes_pruned st + 1)
                      (note BoundPruned))
  else if isIntegerFeasible (solution lp_result) p then
    if isBetterSolution (objective_value lp_result) (best_objective st)
                        (objective_type_ p)
    then Continue (mkState (node_stack st) (objective_value lp_result)
                           (solution lp_result) (nodes_processed st)
                           (nodes_pruned st) (note (IntegerFeasible true)))
    else Continue (mkState (node_stack st) (best_objective st)
                           (best_solution st) (nodes_processed st)
                           (nodes_pruned st) (note (IntegerFeasible false)))
  else
    let branch_var := findBranchingVariable (solution lp_result) p in
    if (branch_var =? -1)%Z then
      Continue (mkState (node_stack st) (best_objective st)
                        (best_solution st) (nodes_processed st)
                        (nodes_pruned st) (note NoFractional))
    else
      let branch_value := vget (solution lp_result) branch_var in
      let left_child :=
        left_child_of current_node lp_result branch_var branch_value in
      let right_child :=
        right_child_of current_node lp_result branch_var branch_value in
      (* push_back(right_child); push_back(left_child) *)
      Continue (mkState (left_child :: right_child :: node_stack st)
                        (best_objective st) (best_solution st)
                        (nodes_processed st) (nodes_pruned st)
                        (note (Branched branch_var branch_value))).

(** One turn of the [while] loop, guard included: [None] when the loop
    stops. *)
Definition loop_step (iteration_limit : Z) (p : Problem) (st : bb_state)
  : option step_result :=
  match node_stack st with
  | [] => None
  | current_node :: rest =>
      if (nodes_processed st <? iteration_limit)%Z then
        Some (process_node p
                (mkState rest (best_objective st) (best_solution st)
                         (nodes_processed st + 1) (nodes_pruned st) (log st))
                current_node)
      else None
  end.

(** The [while] loop.  Every turn increments [nodes_processed], which the
    guard keeps below [iteration_limit]: [fuel] bounds the number of
    turns and [Z.to_nat iteration_limit] turns always suffice (see
    [bb_loop_fuel]). *)
Fixpoint bb_loop (fuel : nat) (iteration_limit : Z) (p : Problem)
    (st : bb_state) : step_result :=
  match fuel with
  | O => Continue st
  | S fuel' =>
      match loop_step iteration_limit p st with
      | None => Continue st
      | Some ReturnUnbounded => ReturnUnbounded
      | Some (Continue st') => bb_loop fuel' iteration_limit p st'
      end
  end.

Definition initial_best (t : ObjectiveType) : double :=
  match t with MINIMIZE => PInf | MAXIMIZE => NInf end.

Definition root_node (p : Problem) : BBNode :=
  mkBBNode p
           (match objective_type_ p with MINIMIZE => NInf | MAXIMIZE => PInf end)
           0.

Definition initial_state (p : Problem) : bb_state :=
  mkState [root_node p] (initial_best (objective_type_ p))
          (replicate (length (variables_ p)) d0) 0 0 [].

Definition run (iteration_limit : Z) (p : Problem) : step_result :=
  bb_loop (Z.to_nat iteration_limit) iteration_limit p (initial_state p).

Definition final_status (iteration_limit : Z) (st : bb_state) : Status :=
  if deqb (best_objective st) PInf || deqb (best_objective st) NInf
  then INFEASIBLE
  else if (nodes_processed st >=? iteration_limit)%Z then ITERATION_LIMIT
  else OPTIMAL.

(** The tail of [solve] after the loop. *)
Definition finish (iteration_limit : Z) (p : Problem) (st : bb_state)
  : Solution :=
  let solution := newSolution (length (variables_ p)) in
  let solution :=
    fold_left (fun s i => setValue s i (best_solution st !!! i))
              (seq 0 (length (variables_ p))) solution in
  let solution := setObjectiveValue solution (best_objective st) in
  let solution := setIterations solution (nodes_processed st) in
  setStatus solution (final_status iteration_limit st).

(** [BranchBoundSolver::solve]; [iteration_limit] is the solver's
    [iteration_limit_] attribute. *)
Definition solve (iteration_limit : Z) (p : Problem) : Solution :=
  match run iteration_limit p with
  | ReturnUnbounded => setStatus (newSolution (length (variables_ p))) UNBOUNDED
  | Continue st => finish iteration_limit p st
  end.

(** The node log of a whole run (empty on the unbounded exit). *)
Definition solve_log (iteration_limit : Z) (p : Problem) : list log_entry :=
  match run iteration_limit p with
  | ReturnUnbounded => []
  | Continue st => log st
  end.


(** ** Vocabulary of the properties *)

Arguments fractional_part : simpl never.

(** A non-strict order on bounds that also relates a bound to itself when
    it is NaN. *)
Definition bound_le (a b : double) : Prop := a = b \/ dlt a b = true.

(** [x] lies in the closed interval of the bounds of [v]. *)
Definition in_interval (v : Variable_) (x : double) : bool :=
  (lower_bound_ v <=? x) && (x <=? upper_bound_ v).

(** The interval of [child] is contained in the interval of [parent]. *)
Definition tightens (parent child : Variable_) : Prop :=
  bound_le (lower_bound_ parent) (lower_bound_ child)
  /\ bound_le (upper_bound_ child) (upper_bound_ parent)
  /\ forall x, in_interval child x = true -> in_interval parent x = true.

(** Two variables that differ at most in their bounds. *)
Definition same_but_bounds (v w : Variable_) : Prop :=
  name_ v = name_ w /\ type_ v = type_ w /\ coefficient_ v = coefficient_ w.

(** Two problems that differ at most in the bounds of their variables. *)
Definition same_but_bounds_problem (p q : Problem) : Prop :=
  pname_ p = pname_ q
  /\ objective_type_ p = objective_type_ q
  /\ constraints_ p = constraints_ q
  /\ Forall2 same_but_bounds (variables_ p) (variables_ q).

(** What [process_node] does, case by case. *)
Inductive node_step (p : Problem) (st : bb_state) (n : BBNode)
  : node_outcome -> bb_state -> Prop :=
  | step_infeasible :
      is_infeasible (solveLPRelaxation (problem n)) = true ->
      node_step p st n LPInfeasible
        (mkState (node_stack st) (best_objective st) (best_solution st)
                 (nodes_processed st) (nodes_pruned st + 1)
                 (record_outcome st n (solveLPRelaxation (problem n))
                                 LPInfeasible))
  | step_bound :
      is_infeasible (solveLPRelaxation (problem n)) = false ->
      shouldPrune (objective_value (solveLPRelaxation (problem n)))
                  (best_objective st) (objective_type_ p) = true ->
      node_step p st n BoundPruned
        (mkState (node_stack st) (best_objective st) (best_solution st)
                 (nodes_processed st) (nodes_pruned st + 1)
                 (record_outcome st n (solveLPRelaxation (problem n))
                                 BoundPruned))
  | step_incumbent :
      is_infeasible (solveLPRelaxation (problem n)) = false ->
      shouldPrune (objective_value (solveLPRelaxation (problem n)))
                  (best_objective st) (objective_type_ p) = false ->
      isIntegerFeasible (solution (solveLPRelaxation (problem n))) p = true ->
      isBetterSolution (objective_value (solveLPRelaxation (problem n)))
                       (best_objective st) (objective_type_ p) = true ->
      node_step p st n (IntegerFeasible true)
        (mkState (node_stack st)
                 (objective_value (solveLPRelaxation (problem n)))
                 (solution (solveLPRelaxation (problem n)))
                 (nodes_processed st) (nodes_pruned st)
                 (record_outcome st n (solveLPRelaxation (problem n))
                                 (IntegerFeasible true)))
  | step_not_better :
      is_infeasible (solveLPRelaxation (problem n)) = false ->
      shouldPrune (objective_value (solveLPRelaxation (problem n)))
                  (best_objective st) (objective_type_ p) = false ->
      isIntegerFeasible (solution (solveLPRelaxation (problem n))) p = true ->
      isBetterSolution (objective_value (solveLPRelaxation (problem n)))
                       (best_objective st) (objective_type_ p) = false ->
      node_step p st n (IntegerFeasible false)
        (mkState (node_stack st) (best_objective st) (best_solution st)
                 (nodes_processed st) (nodes_pruned st)
                 (record_outcome st n (solveLPRelaxation (problem n))
                                 (IntegerFeasible false)))
  | step_no_fractional :
      is_infeasible (solveLPRelaxation (problem n)) = false ->
      shouldPrune (objective_value (solveLPRelaxation (problem n)))
                  (best_objective st) (objective_type_ p) = false ->
      isIntegerFeasible (solution (solveLPRelaxation (problem n))) p = false ->
      findBranchingVariable (solution (solveLPRelaxation (problem n))) p
        = (-1)%Z ->
      node_step p st n NoFractional
        (mkState (node_stack st) (best_objective st) (best_solution st)
                 (nodes_processed st) (nodes_pruned st)
                 (record_outcome st n (solveLPRelaxation (problem n))
                                 NoFractional))
  | step_branch (branch_var : Z) (branch_value : double) :
      is_infeasible (solveLPRelaxation (problem n)) = false ->
      shouldPrune (objective_value (solveLPRelaxation (problem n)))
                  (best_objective st) (objective_type_ p) = false ->
      isIntegerFeasible (solution (solveLPRelaxation (problem n))) p = false ->
      findBranchingVariable (solution (solveLPRelaxation (problem n))) p
        = branch_var ->
      branch_var <> (-1)%Z ->
      branch_value
        = vget (solution (solveLPRelaxation (problem n))) branch_var ->
      node_step p st n (Branched branch_var branch_value)
        (mkState
           (left_child_of n (solveLPRelaxation (problem n)) branch_var
                          branch_value
            :: right_child_of n (solveLPRelaxation (problem n)) branch_var
                              branch_value
            :: node_stack st)
           (best_objective st) (best_solution st)
           (nodes_processed st) (nodes_pruned st)
           (record_outcome st n (solveLPRelaxation (problem n))
                           (Branched branch_var branch_value))).


(** A variable that may be branched on: integer or binary, with a value
    further than the integrality tolerance from the nearest integer. *)
Definition candidate (var : Variable_) (val : double) : bool :=
  is_integral_type (type_ var) && (fractional_part val >? d1e_6).

(** Index [k] holds the variable the branching rule names: a candidate
    whose fractional part is the largest among the candidates and strictly
    larger than that of every candidate before it. *)
Definition most_fractional (vars : list Variable_) (sol : vec) (k : nat)
  : Prop :=
  exists var val,
    vars !! k = Some var /\ sol !! k = Some val
    /\ candidate var val = true
    /\ (forall j var' val',
          vars !! j = Some var' -> sol !! j = Some val' ->
          candidate var' val' = true ->
          (fractional_part val' <=? fractional_part val) = true)
    /\ (forall j var' val',
          (j < k)%nat ->
          vars !! j = Some var' -> sol !! j = Some val' ->
          candidate var' val' = true ->
          (fractional_part val' <? fractional_part val) = true).

(** Problems reachable from [p] by the bound tightenings of branching. *)
Inductive descendant (p : Problem) : Problem -> Prop :=
  | desc_root : descendant p p
  | desc_down (q : Problem) (k : Z) (a : Q) :
      descendant p q ->
      descendant p (addBound q k NInf (dfloor (Fin a)))
  | desc_up (q : Problem) (k : Z) (a : Q) :
      descendant p q ->
      descendant p (addBound q k (dceil (Fin a)) PInf).

(** The incumbent is either the initial one or the LP solution of a
    descendant that passed the integrality test. *)
Definition incumbent_from (p : Problem) (st : bb_state) : Prop :=
  (best_objective st = initial_best (objective_type_ p)
   /\ best_solution st = replicate (length (variables_ p)) d0)
  \/ exists q,
       descendant p q
       /\ is_infeasible (solveLPRelaxation q) = false
       /\ best_solution st = solution (solveLPRelaxation q)
       /\ best_objective st = objective_value (solveLPRelaxation q)
       /\ isIntegerFeasible (solution (solveLPRelaxation q)) p = true.

Definition run_invariant (p : Problem) (st : bb_state) : Prop :=
  Forall (fun n => descendant p (problem n)) (node_stack st)
  /\ Forall (fun e => descendant p (problem (log_node e))) (log st)
  /\ incumbent_from p st.







(** [Constraint::isSatisfied] with the tolerance as a parameter. *)
Definition isSatisfiedWithin (tolerance : double) (c : Constraint)
    (solution : vec) : bool :=
  let lhs := lhs_of (coefficients_ c) solution in
  match ctype_ c with
  | LESS_EQUAL => lhs <=? rhs_ c + tolerance
  | GREATER_EQUAL => lhs >=? rhs_ c - tolerance
  | EQUAL => dabs (lhs - rhs_ c) <? tolerance
  end.








(** Every value of the assignment is within the bounds of its variable, up
    to the feasibility tolerance. *)
Definition bounded_by (vars : list Variable_) (s : vec) : Prop :=
  Forall2 (fun v x => within_bounds v x = true) vars s.


(** ** The initial assignment in the words of the specification *)

(** The bound the objective favours, as the specification words it: the
    sign test is [coeff >= 0]. *)
Definition claimed_initial_value (objective_type : ObjectiveType)
    (var : Variable_) : double :=
  if dabs (lower_bound_ var - upper_bound_ var) <? d1e_9
  then lower_bound_ var
  else
    let chosen :=
      match objective_type with
      | MINIMIZE => if coefficient_ var >=? d0 then lower_bound_ var
                    else upper_bound_ var
      | MAXIMIZE => if coefficient_ var >=? d0 then upper_bound_ var
                    else lower_bound_ var
      end in
    match chosen with
    | PInf => d100
    | NInf => d0
    | _ => chosen
    end.

(** The same rule with the sign test [coeff > 0]: a zero coefficient is
    treated like a negative one. *)
Definition favorable_initial_value (objective_type : ObjectiveType)
    (var : Variable_) : double :=
  if dabs (lower_bound_ var - upper_bound_ var) <? d1e_9
  then lower_bound_ var
  else
    let chosen :=
      match objective_type with
      | MINIMIZE => if coefficient_ var >? d0 then lower_bound_ var
                    else upper_bound_ var
      | MAXIMIZE => if coefficient_ var >? d0 then upper_bound_ var
                    else lower_bound_ var
      end in
    match chosen with
    | PInf => d100
    | NInf => d0
    | _ => chosen
    end.

(** ** Concrete problems *)

Local Open Scope string_scope.

(** minimize 0*x, 0 <= x <= 10 *)
Definition zero_cost_variable : Variable_ :=
  mkVariable "x" CONTINUOUS (Fin 0) (Fin 10) (Fin 0).

Definition zero_cost_problem : Problem :=
  mkProblem "zero_cost" MINIMIZE [zero_cost_variable] [].

(** minimize x, x integer, fixed at 1 + 2^-21 *)
Definition near_integer_value : double := Fin (2097153 # 2097152).

Definition near_integer_problem : Problem :=
  mkProblem "near_integer" MINIMIZE
    [mkVariable "x" INTEGER near_integer_value near_integer_value (Fin 1)]
    [].

(** minimize x, x fixed at 0.1, subject to x <= 0 *)
Definition tenth_problem : Problem :=
  mkProblem "tenth" MINIMIZE
    [mkVariable "x" CONTINUOUS d0_1 d0_1 (Fin 1)]
    [mkConstraint "c" LESS_EQUAL (Fin 0) {[ 0%Z := Fin 1 ]}].

(** minimize y, y fixed at 1/16, subject to y <= 0 *)
Definition loose_problem : Problem :=
  mkProblem "loose" MINIMIZE
    [mkVariable "y" CONTINUOUS (Fin (1 # 16)) (Fin (1 # 16)) (Fin 1)]
    [mkConstraint "c" LESS_EQUAL (Fin 0) {[ 0%Z := Fin 1 ]}].

(** minimize x subject to x >= -10, with x <= -5 and no lower bound *)
Definition sentinel_problem : Problem :=
  mkProblem "sentinel" MINIMIZE
    [mkVariable "x" CONTINUOUS NInf (Fin (-5)) (Fin 1)]
    [mkConstraint "c" GREATER_EQUAL (Fin (-10)) {[ 0%Z := Fin 1 ]}].

(** minimize x + 10 y + u + 100 v
    subject to x + y >= 1 and u + v - x >= -1/2,
    x integer, all variables in [0, 10] *)
Definition pruned_problem : Problem :=
  mkProblem "pruned" MINIMIZE
    [mkVariable "x" INTEGER (Fin 0) (Fin 10) (Fin 1);
     mkVariable "y" CONTINUOUS (Fin 0) (Fin 10) (Fin 10);
     mkVariable "u" CONTINUOUS (Fin 0) (Fin 10) (Fin 1);
     mkVariable "v" CONTINUOUS (Fin 0) (Fin 10) (Fin 100)]
    [mkConstraint "c1" GREATER_EQUAL (Fin 1)
                  (<[ 0%Z := Fin 1 ]> {[ 1%Z := Fin 1 ]});
     mkConstraint "c2" GREATER_EQUAL (Fin (-1 # 2))
                  (<[ 2%Z := Fin 1 ]>
                     (<[ 3%Z := Fin 1 ]> {[ 0%Z := Fin (-1) ]}))].

(** x = 1, y = 0, u = 1/2, v = 0 *)
Definition better_point : vec := [Fin 1; Fin 0; Fin (1 # 2); Fin 0].

(** maximize 3x + 2y subject to x + y <= 4 and x + 3y <= 6,
    x, y >= 0 integer *)
Definition branching_problem : Problem :=
  mkProblem "branching" MAXIMIZE
    [mkVariable "x" INTEGER (Fin 0) PInf (Fin 3);
     mkVariable "y" INTEGER (Fin 0) PInf (Fin 2)]
    [mkConstraint "c1" LESS_EQUAL (Fin 4)
                  (<[ 0%Z := Fin 1 ]> {[ 1%Z := Fin 1 ]});
     mkConstraint "c2" LESS_EQUAL (Fin 6)
                  (<[ 0%Z := Fin 1 ]> {[ 1%Z := Fin 3 ]})].

(** The state in which the loop of [solve] processes its first node. *)
Definition first_turn (p : Problem) : bb_state :=
  mkState [] (initial_best (objective_type_ p))
          (replicate (length (variables_ p)) d0) 1 0 [].

Local Close Scope string_scope.

(** ** Vocabulary of the further properties *)

(** Objective [a] is the objective [b] or beats it by more than the
    tolerance of [isBetterSolution]. *)
Definition not_worse (t : ObjectiveType) (a b : double) : Prop :=
  a = b \/ isBetterSolution a b t = true.

(** The vector [Solution(n)] starts with. *)
Definition zeros (p : Problem) : vec := replicate (length (variables_ p)) d0.

(** No variable of the problem is Integer or Binary. *)
Definition all_continuous (p : Problem) : bool :=
  forallb (fun v => negb (is_integral_type (type_ v))) (variables_ p).

(** The repair step never moves variable [i] away from the value [x]: for
    every constraint in which the variable has a coefficient, the room
    test of [fixConstraintViolation] fails at [x] in both directions. *)
Definition pinned (p : Problem) (i : nat) (x : double) : Prop :=
  forall c coeff t,
    c ∈ constraints_ p -> coefficients_ c !! Z.of_nat i = Some coeff ->
    can_adjust (getVariable p (Z.of_nat i)) x t coeff = false.

Local Open Scope string_scope.

(** minimize x + y subject to x >= 1, with x and y in [0, 10]: y occurs
    in no constraint. *)
Definition spare_problem : Problem :=
  mkProblem "spare" MINIMIZE
    [mkVariable "x" CONTINUOUS (Fin 0) (Fin 10) (Fin 1);
     mkVariable "y" CONTINUOUS (Fin 0) (Fin 10) (Fin 1)]
    [mkConstraint "c" GREATER_EQUAL (Fin 1) {[ 0%Z := Fin 1 ]}].

Local Close Scope string_scope.

(** * Properties *)

(** ** Comparisons of doubles *)

Lemma Qltb_true (a b : Q) : Qltb a b = true <-> (a < b)%Q.
Proof.
  unfold Qltb. rewrite negb_true_iff, <- not_true_iff_false, Qle_bool_iff.
  split; [apply Qnot_le_lt | apply Qlt_not_le].
Qed.

Lemma Qltb_false (a b : Q) : Qltb a b = false <-> (b <= a)%Q.
Proof. unfold Qltb. now rewrite negb_false_iff, Qle_bool_iff. Qed.

Lemma Qle_bool_false (a b : Q) : Qle_bool a b = false <-> (b < a)%Q.
Proof.
  rewrite <- not_true_iff_false, Qle_bool_iff.
  split; [apply Qnot_le_lt | apply Qlt_not_le].
Qed.

(** Turns the boolean comparisons of rationals in the context and the goal
    into propositions. *)
Ltac q_prop :=
  repeat match goal with
         | H : Qltb _ _ = true |- _ => apply Qltb_true in H
         | H : Qltb _ _ = false |- _ => apply Qltb_false in H
         | H : Qle_bool _ _ = true |- _ => apply Qle_bool_iff in H
         | H : Qle_bool _ _ = false |- _ => apply Qle_bool_false in H
         | |- Qltb _ _ = true => apply Qltb_true
         | |- Qltb _ _ = false => apply Qltb_false
         | |- Qle_bool _ _ = true => apply Qle_bool_iff
         | |- Qle_bool _ _ = false => apply Qle_bool_false
         end.

(** Case analysis on the doubles in sight, then arithmetic on the finite
    cases. *)
Ltac d_cases :=
  repeat match goal with
         | x : double |- _ => destruct x
         end;
  cbn in *; unfold fin in *; try discriminate; try reflexivity; try tauto.

Ltac q_solve :=
  q_prop; repeat rewrite ?Qred_correct in *; try lra.

Lemma dlt_dle_trans (a b c : double) :
  dlt a b = true -> dle b c = true -> dle a c = true.
Proof. intros H1 H2. d_cases; q_solve. Qed.

Lemma dle_dlt_trans (a b c : double) :
  dle a b = true -> dlt b c = true -> dle a c = true.
Proof. intros H1 H2. d_cases; q_solve. Qed.

Lemma dlt_NInf_false (a : double) : dlt a NInf = false.
Proof. now destruct a. Qed.

Lemma dlt_PInf_false (a : double) : dlt PInf a = false.
Proof. now destruct a. Qed.

Lemma dmax_NInf (a : double) : dmax a NInf = a.
Proof. unfold dmax. now rewrite dlt_NInf_false. Qed.

Lemma dmin_PInf (a : double) : dmin a PInf = a.
Proof. unfold dmin. now rewrite dlt_PInf_false. Qed.

Lemma bound_le_dmax (a b : double) : bound_le a (dmax a b).
Proof. unfold bound_le, dmax. destruct (dlt a b) eqn:E; auto. Qed.

Lemma bound_le_dmin (a b : double) : bound_le (dmin a b) a.
Proof. unfold bound_le, dmin. destruct (dlt b a) eqn:E; auto. Qed.
(** ** The loop of [solve] never takes the unbounded exit *)

Lemma solveLPWithBounds_is_unbounded (p : Problem) :
  is_unbounded (solveLPWithBounds p) = false.
Proof.
  unfold solveLPWithBounds.
  destruct (existsb has_infeasible_bounds (variables_ p)); [reflexivity|].
  destruct (satisfyConstraints p _) as [[|] s]; reflexivity.
Qed.

Lemma process_node_continues (p : Problem) (st : bb_state) (n : BBNode) :
  exists st', process_node p st n = Continue st'.
Proof.
  unfold process_node, solveLPRelaxation.
  rewrite solveLPWithBounds_is_unbounded. cbn [andb].
  repeat match goal with
         | |- context [if ?b then _ else _] => destruct b
         end; eauto.
Qed.

Lemma loop_step_continues (limit : Z) (p : Problem) (st : bb_state)
    (r : step_result) :
  loop_step limit p st = Some r -> exists st', r = Continue st'.
Proof.
  unfold loop_step. destruct (node_stack st) as [|n rest]; [discriminate|].
  destruct (nodes_processed st <? limit)%Z; [|discriminate].
  intros [= <-]. apply process_node_continues.
Qed.

Lemma bb_loop_continues (fuel : nat) (limit : Z) (p : Problem)
    (st : bb_state) :
  exists st', bb_loop fuel limit p st = Continue st'.
Proof.
  revert st. induction fuel as [|fuel IH]; intros st; cbn [bb_loop].
  - eauto.
  - destruct (loop_step limit p st) as [r|] eqn:Hstep; [|eauto].
    destruct (loop_step_continues _ _ _ _ Hstep) as [st' ->]. apply IH.
Qed.

Lemma run_continues (limit : Z) (p : Problem) :
  exists st, run limit p = Continue st.
Proof. apply bb_loop_continues. Qed.

Lemma status_finish (limit : Z) (p : Problem) (st : bb_state) :
  status (finish limit p st) = final_status limit st.
Proof. reflexivity. Qed.

Lemma solve_finish (limit : Z) (p : Problem) :
  exists st, run limit p = Continue st /\ solve limit p = finish limit p st.
Proof.
  destruct (run_continues limit p) as [st Hst]. exists st. split; [exact Hst|].
  unfold solve. now rewrite Hst.
Qed.

(** C10: the LP relaxation never reports unboundedness and [solve] never
    returns the status UNBOUNDED, whatever the problem and the iteration
    limit. *)
Theorem solve_never_unbounded (p : Problem) :
  is_unbounded (solveLPRelaxation p) = false
  /\ forall limit : Z, status (solve limit p) <> UNBOUNDED.
Proof.
  split; [apply solveLPWithBounds_is_unbounded|].
  intros limit. destruct (solve_finish limit p) as (st & _ & ->).
  rewrite status_finish. unfold final_status.
  repeat match goal with
         | |- context [if ?b then _ else _] => destruct b
         end; discriminate.
Qed.

(** ** [addBound] only tightens, and only bounds *)

Lemma Forall2_insert_self {A : Type} `{Inhabited A} (R : A -> A -> Prop)
    (f : A -> A) (l : list A) (i : nat) :
  (forall x, R x x) -> (forall x, R x (f x)) ->
  Forall2 R l (<[i := f (l !!! i)]> l).
Proof.
  intros Hrefl Hf. revert i.
  induction l as [|x l IH]; intros i; [constructor|].
  destruct i as [|i]; cbn.
  - constructor; [apply Hf|]. clear IH. induction l; constructor; auto.
  - constructor; [apply Hrefl | apply IH].
Qed.

Lemma tightens_refl (v : Variable_) : tightens v v.
Proof. unfold tightens, bound_le. auto. Qed.

Lemma tightens_setBounds (v : Variable_) (lower upper : double) :
  tightens v (setBounds v (dmax (lower_bound_ v) lower)
                          (dmin (upper_bound_ v) upper)).
Proof.
  unfold tightens. cbn. split; [apply bound_le_dmax|].
  split; [apply bound_le_dmin|].
  intros x. unfold in_interval. cbn. rewrite !andb_true_iff.
  intros [Hl Hu]. split.
  - unfold dmax in Hl. destruct (dlt (lower_bound_ v) lower) eqn:E; [|exact Hl].
    eapply dlt_dle_trans; eauto.
  - unfold dmin in Hu. destruct (dlt upper (upper_bound_ v)) eqn:E; [|exact Hu].
    eapply dle_dlt_trans; eauto.
Qed.

Lemma addBound_tightens (p : Problem) (i : Z) (lower upper : double) :
  Forall2 tightens (variables_ p) (variables_ (addBound p i lower upper)).
Proof.
  unfold addBound, getVariable. cbn.
  apply (Forall2_insert_self tightens
           (fun v => setBounds v (dmax (lower_bound_ v) lower)
                                 (dmin (upper_bound_ v) upper))).
  - apply tightens_refl.
  - intros v. apply tightens_setBounds.
Qed.

(** C9: in both children created by a branching step, every variable's
    bound interval is contained in the one it has in the parent node: the
    lower bound did not decrease, the upper bound did not increase, and
    every value between the child's bounds lies between the parent's. *)
Theorem child_bounds_within_parent (current_node : BBNode)
    (lp : SimplexResult) (branch_var : Z) (branch_value : double) :
  Forall2 tightens
    (variables_ (problem current_node))
    (variables_ (problem (left_child_of current_node lp branch_var
                                        branch_value)))
  /\ Forall2 tightens
       (variables_ (problem current_node))
       (variables_ (problem (right_child_of current_node lp branch_var
                                            branch_value))).
Proof. split; apply addBound_tightens. Qed.

Lemma same_but_bounds_refl (v : Variable_) : same_but_bounds v v.
Proof. unfold same_but_bounds. auto. Qed.

Lemma same_but_bounds_trans (u v w : Variable_) :
  same_but_bounds u v -> same_but_bounds v w -> same_but_bounds u w.
Proof. unfold same_but_bounds. intuition congruence. Qed.

Lemma same_but_bounds_problem_refl (p : Problem) :
  same_but_bounds_problem p p.
Proof.
  unfold same_but_bounds_problem. repeat split.
  induction (variables_ p); constructor; auto using same_but_bounds_refl.
Qed.

Lemma Forall2_same_but_bounds_trans (l1 l2 l3 : list Variable_) :
  Forall2 same_but_bounds l1 l2 -> Forall2 same_but_bounds l2 l3 ->
  Forall2 same_but_bounds l1 l3.
Proof.
  intros H12. revert l3. induction H12; intros l3 H23; inversion H23; subst;
    constructor; eauto using same_but_bounds_trans.
Qed.

Lemma same_but_bounds_problem_trans (p q r : Problem) :
  same_but_bounds_problem p q -> same_but_bounds_problem q r ->
  same_but_bounds_problem p r.
Proof.
  unfold same_but_bounds_problem.
  intros (? & ? & ? & ?) (? & ? & ? & ?).
  repeat split; try congruence.
  eapply Forall2_same_but_bounds_trans; eauto.
Qed.

Lemma addBound_frame (p : Problem) (i : Z) (lower upper : double) :
  same_but_bounds_problem p (addBound p i lower upper).
Proof.
  unfold same_but_bounds_problem, addBound, getVariable. cbn.
  repeat split.
  apply (Forall2_insert_self same_but_bounds
           (fun v => setBounds v (dmax (lower_bound_ v) lower)
                                 (dmin (upper_bound_ v) upper))).
  - apply same_but_bounds_refl.
  - intros v. unfold same_but_bounds. cbn. auto.
Qed.

(** ** The outcomes of one node *)

Lemma process_node_step (p : Problem) (st : bb_state) (n : BBNode)
    (st' : bb_state) :
  process_node p st n = Continue st' ->
  exists o, node_step p st n o st'.
Proof.
  unfold process_node.
  destruct (is_infeasible (solveLPRelaxation (problem n))) eqn:Hinf.
  { intros [= <-]. eexists. now apply step_infeasible. }
  unfold solveLPRelaxation at 1. rewrite solveLPWithBounds_is_unbounded.
  cbn [andb].
  destruct (shouldPrune _ _ _) eqn:Hprune.
  { intros [= <-]. eexists. now apply step_bound. }
  destruct (isIntegerFeasible _ _) eqn:Hint.
  { destruct (isBetterSolution _ _ _) eqn:Hbetter; intros [= <-]; eexists.
    - now apply step_incumbent.
    - now apply step_not_better. }
  destruct (findBranchingVariable _ _ =? -1)%Z eqn:Hbv; intros [= <-]; eexists.
  - apply Z.eqb_eq in Hbv. now apply step_no_fractional.
  - apply Z.eqb_neq in Hbv. now apply step_branch.
Qed.

(** A turn of the loop pops the head of the stack, counts it, and
    processes it. *)
Lemma loop_step_inv (limit : Z) (p : Problem) (st st' : bb_state) :
  loop_step limit p st = Some (Continue st') ->
  exists n rest o,
    node_stack st = n :: rest
    /\ (nodes_processed st < limit)%Z
    /\ node_step p
         (mkState rest (best_objective st) (best_solution st)
                  (nodes_processed st + 1) (nodes_pruned st) (log st))
         n o st'.
Proof.
  unfold loop_step. destruct (node_stack st) as [|n rest]; [discriminate|].
  destruct (nodes_processed st <? limit)%Z eqn:Hlim; [|discriminate].
  intros [= Hp]. apply process_node_step in Hp as [o Ho].
  exists n, rest, o. repeat split; [|exact Ho]. now apply Z.ltb_lt.
Qed.

(** Invariants of the loop. *)
Lemma bb_loop_invariant (limit : Z) (p : Problem) (I : bb_state -> Prop) :
  (forall st st', I st -> loop_step limit p st = Some (Continue st') ->
                  I st') ->
  forall fuel st st', I st -> bb_loop fuel limit p st = Continue st' -> I st'.
Proof.
  intros Hstep fuel. induction fuel as [|fuel IH]; intros st st' Hst;
    cbn [bb_loop].
  - now intros [= <-].
  - destruct (loop_step limit p st) as [[st1|]|] eqn:E.
    + intros Hrun. eapply IH; [|exact Hrun]. eapply Hstep; eauto.
    + discriminate.
    + now intros [= <-].
Qed.

(** ** The branching variable *)

Lemma fractional_part_gt_finite (val t : double) :
  (fractional_part val >? t) = true ->
  exists a q, val = Fin a /\ fractional_part val = Fin q.
Proof.
  unfold fractional_part, dgt. destruct val as [| |a|]; cbn.
  - now destruct t.
  - now destruct t.
  - intros _. eauto.
  - now destruct t.
Qed.

Lemma candidate_finite (var : Variable_) (val : double) :
  candidate var val = true ->
  exists a q, val = Fin a /\ fractional_part val = Fin q /\ (1 # 1000000 < q)%Q.
Proof.
  unfold candidate. rewrite andb_true_iff. intros [_ H].
  destruct (fractional_part_gt_finite _ _ H) as (a & q & -> & Hq).
  exists a, q. repeat split; [exact Hq|].
  rewrite Hq in H. cbn in H. now apply Qltb_true in H.
Qed.

Lemma findBranchingVariable_from_spec (vars : list Variable_) :
  forall (sol : vec) (i branch_var : Z) (m : Q),
    let r := findBranchingVariable_from vars sol i branch_var (Fin m) in
    (r = branch_var
     /\ forall k var val,
          vars !! k = Some var -> sol !! k = Some val ->
          candidate var val = true ->
          (fractional_part val <=? Fin m) = true)
    \/ (exists k,
          r = (i + Z.of_nat k)%Z
          /\ most_fractional vars sol k
          /\ exists val, sol !! k = Some val
                         /\ (Fin m <? fractional_part val) = true).
Proof.
  induction vars as [|var vars IH]; intros sol i bv m;
    cbn [findBranchingVariable_from].
  { left. split; [reflexivity|]. intros k ? ? Hk. discriminate. }
  destruct sol as [|val sol].
  { left. split; [reflexivity|]. intros k ? ? _ Hk. discriminate. }
  destruct (is_integral_type (type_ var)
            && ((fractional_part val >? d1e_6)
                && (fractional_part val >? Fin m))) eqn:Hsel.
  - (* the head becomes the running choice *)
    assert (Hc : candidate var val = true).
    { unfold candidate. rewrite !andb_true_iff in *. tauto. }
    assert (Hgt : (Fin m <? fractional_part val) = true).
    { rewrite !andb_true_iff in Hsel. apply Hsel. }
    destruct (candidate_finite _ _ Hc) as (a & q & -> & Hq & Hq6).
    rewrite Hq in *. cbn in Hgt. apply Qltb_true in Hgt.
    destruct (IH sol (i + 1)%Z i q) as [[Hr Hall]|(k & Hr & Hmost & Hbig)].
    + right. exists 0%nat. split; [rewrite Hr; lia|]. split.
      * exists var, (Fin a). cbn. repeat split; auto.
        -- intros [|j] var' val'; cbn.
           ++ intros [= <-] [= <-] _. rewrite Hq. cbn. q_solve.
           ++ intros ? ? ?. rewrite Hq. eauto.
        -- intros j ? ? Hj. lia.
      * exists (Fin a). rewrite Hq. cbn. split; [reflexivity|]. q_solve.
    + right. exists (S k). split; [rewrite Hr; lia|].
      destruct Hmost as (vk & xk & Hvk & Hxk & Hck & Hmax & Hfirst).
      destruct Hbig as (xk' & Hxk' & Hlt).
      assert (xk' = xk) by congruence. subst xk'.
      destruct (candidate_finite _ _ Hck) as (ak & qk & -> & Hqk & _).
      rewrite Hqk in *. cbn in Hlt. apply Qltb_true in Hlt.
      split.
      * exists vk, (Fin ak). cbn. repeat split; auto.
        -- intros [|j] var' val'; cbn.
           ++ intros [= <-] [= <-] _. rewrite Hq, Hqk. cbn. q_solve.
           ++ intros ? ? ?. rewrite ?Hqk. eauto.
        -- intros [|j] var' val' Hj; cbn.
           ++ intros [= <-] [= <-] _. rewrite Hq, Hqk. cbn. q_solve.
           ++ intros ? ? ?. rewrite ?Hqk. eapply Hfirst; eauto. lia.
      * exists (Fin ak). cbn. split; [exact Hxk|]. rewrite Hqk. cbn. q_solve.
  - (* the head is passed over *)
    destruct (IH sol (i + 1)%Z bv m) as [[Hr Hall]|(k & Hr & Hmost & Hbig)].
    + left. split; [exact Hr|]. intros [|k] var' val'; cbn.
      * intros [= <-] [= <-] Hc.
        destruct (candidate_finite _ _ Hc) as (a & q & -> & Hq & Hq6).
        unfold candidate in Hc. rewrite andb_true_iff in Hc.
        destruct Hc as [Hty Hc]. rewrite Hty, Hc in Hsel. cbn in Hsel.
        rewrite Hq in *. cbn in *. q_solve.
      * eauto.
    + right. exists (S k). split; [rewrite Hr; lia|].
      destruct Hmost as (vk & xk & Hvk & Hxk & Hck & Hmax & Hfirst).
      destruct Hbig as (xk' & Hxk' & Hlt).
      assert (xk' = xk) by congruence. subst xk'.
      destruct (candidate_finite _ _ Hck) as (ak & qk & -> & Hqk & _).
      rewrite Hqk in *. cbn in Hlt. apply Qltb_true in Hlt.
      assert (Hhead : candidate var val = true ->
                      exists q, fractional_part val = Fin q /\ (q <= m)%Q).
      { intros Hc. destruct (candidate_finite _ _ Hc) as (a & q & -> & Hq & _).
        exists q. split; [exact Hq|].
        unfold candidate in Hc. rewrite andb_true_iff in Hc.
        destruct Hc as [Hty Hc]. rewrite Hty, Hc in Hsel. cbn in Hsel.
        rewrite Hq in Hsel. cbn in Hsel. q_solve. }
      split.
      * exists vk, (Fin ak). cbn. repeat split; auto.
        -- intros [|j] var' val'; cbn.
           ++ intros [= <-] [= <-] Hc. destruct (Hhead Hc) as (q & Hq & Hle).
              rewrite Hq, Hqk. cbn. q_solve.
           ++ intros ? ? ?. rewrite ?Hqk. eauto.
        -- intros [|j] var' val' Hj; cbn.
           ++ intros [= <-] [= <-] Hc. destruct (Hhead Hc) as (q & Hq & Hle).
              rewrite Hq, Hqk. cbn. q_solve.
           ++ intros ? ? ?. rewrite ?Hqk. eapply Hfirst; eauto. lia.
      * exists (Fin ak). cbn. split; [exact Hxk|]. rewrite Hqk. cbn. q_solve.
Qed.

Lemma isIntegerFeasible_false (p : Problem) (sol : vec) :
  isIntegerFeasible sol p = false ->
  exists k var val,
    variables_ p !! k = Some var /\ sol !! k = Some val
    /\ candidate var val = true.
Proof.
  unfold isIntegerFeasible. generalize (variables_ p) as vars.
  intros vars. revert sol.
  induction vars as [|var vars IH]; intros [|val sol]; cbn [combine forallb];
    try discriminate.
  fold (candidate var val).
  destruct (candidate var val) eqn:Hc; cbn [negb andb].
  - intros _. exists 0%nat, var, val. auto.
  - intros H. destruct (IH sol H) as (k & var' & val' & ? & ? & ?).
    exists (S k), var', val'. auto.
Qed.

Lemma isIntegerFeasible_true (p : Problem) (sol : vec) (k : nat)
    (var : Variable_) (val : double) :
  isIntegerFeasible sol p = true ->
  variables_ p !! k = Some var -> sol !! k = Some val ->
  candidate var val = false.
Proof.
  unfold isIntegerFeasible. generalize (variables_ p) as vars.
  intros vars. revert sol k.
  induction vars as [|v vars IH]; intros [|x sol] k; cbn [combine forallb];
    try discriminate.
  fold (candidate v x). rewrite andb_true_iff, negb_true_iff.
  intros [Hc Hrest]. destruct k as [|k]; cbn.
  - now intros [= <-] [= <-].
  - eauto.
Qed.

(** The index returned by [findBranchingVariable] is [-1] exactly when no
    variable is a candidate; otherwise it is the first candidate of
    largest fractional part. *)
Lemma findBranchingVariable_spec (sol : vec) (p : Problem) :
  (findBranchingVariable sol p = (-1)%Z
   /\ forall k var val,
        variables_ p !! k = Some var -> sol !! k = Some val ->
        candidate var val = false)
  \/ exists k,
       findBranchingVariable sol p = Z.of_nat k
       /\ most_fractional (variables_ p) sol k.
Proof.
  unfold findBranchingVariable, d0.
  destruct (findBranchingVariable_from_spec (variables_ p) sol 0 (-1) 0)
    as [[Hr Hall]|(k & Hr & Hmost & _)].
  - left. split; [exact Hr|]. intros k var val Hv Hs.
    destruct (candidate var val) eqn:Hc; [|reflexivity].
    specialize (Hall k var val Hv Hs Hc).
    destruct (candidate_finite _ _ Hc) as (a & q & -> & Hq & Hq6).
    rewrite Hq in Hall. cbn in Hall. q_solve.
  - right. exists k. split; [|exact Hmost]. rewrite Hr. lia.
Qed.

Lemma findBranchingVariable_found (sol : vec) (p : Problem) :
  isIntegerFeasible sol p = false ->
  exists k,
    findBranchingVariable sol p = Z.of_nat k
    /\ most_fractional (variables_ p) sol k.
Proof.
  intros Hint. destruct (findBranchingVariable_spec sol p) as [[_ Hnone]|H];
    [|exact H].
  destruct (isIntegerFeasible_false _ _ Hint) as (k & var & val & Hv & Hs & Hc).
  rewrite (Hnone k var val Hv Hs) in Hc. discriminate.
Qed.

Lemma vget_lookup (sol : vec) (k : nat) (val : double) :
  sol !! k = Some val -> vget sol (Z.of_nat k) = val.
Proof.
  intros H. unfold vget. rewrite Nat2Z.id.
  now apply list_lookup_total_correct.
Qed.

Lemma addBound_lookup (q : Problem) (k : nat) (var : Variable_)
    (lower upper : double) :
  variables_ q !! k = Some var ->
  variables_ (addBound q (Z.of_nat k) lower upper) !! k
    = Some (setBounds var (dmax (lower_bound_ var) lower)
                          (dmin (upper_bound_ var) upper))
  /\ forall j, j <> k ->
       variables_ (addBound q (Z.of_nat k) lower upper) !! j
         = variables_ q !! j.
Proof.
  intros Hk. unfold addBound, getVariable. cbn. rewrite Nat2Z.id.
  rewrite (list_lookup_total_correct _ _ _ Hk). split.
  - apply list_lookup_insert_eq. eapply lookup_lt_Some; eauto.
  - intros j Hj. now apply list_lookup_insert_ne.
Qed.



(** ** The nodes of a run *)

Lemma descendant_same_but_bounds (p q : Problem) :
  descendant p q -> same_but_bounds_problem p q.
Proof.
  induction 1.
  - apply same_but_bounds_problem_refl.
  - eapply same_but_bounds_problem_trans; [eassumption|apply addBound_frame].
  - eapply same_but_bounds_problem_trans; [eassumption|apply addBound_frame].
Qed.

Lemma record_outcome_Forall (P : log_entry -> Prop) (st : bb_state)
    (n : BBNode) (lp : SimplexResult) (o : node_outcome) :
  Forall P (log st) -> P (mkLogEntry n lp (best_objective st) o) ->
  Forall P (record_outcome st n lp o).
Proof.
  intros Hlog He. unfold record_outcome. apply Forall_app. split; auto.
Qed.

Lemma branch_value_finite (sol : vec) (p : Problem) (bv : Z) :
  findBranchingVariable sol p = bv -> bv <> (-1)%Z ->
  exists a, vget sol bv = Fin a.
Proof.
  intros Hbv Hne.
  destruct (findBranchingVariable_spec sol p) as [[H _]|(k & Hk & Hmost)];
    [congruence|].
  destruct Hmost as (var & val & _ & Hval & Hc & _).
  destruct (candidate_finite _ _ Hc) as (a & _ & -> & _).
  exists a. rewrite <- Hbv, Hk. now apply vget_lookup.
Qed.

Lemma node_step_invariant (p : Problem) (st : bb_state) (n : BBNode)
    (o : node_outcome) (st' : bb_state) :
  descendant p (problem n) ->
  run_invariant p st ->
  node_step p st n o st' ->
  run_invariant p st'.
Proof.
  intros Hn (Hstack & Hlog & Hinc) Hstep. unfold run_invariant.
  destruct Hstep; cbn [node_stack log];
    (split; [|split; [apply record_outcome_Forall; [exact Hlog|exact Hn]|]]);
    try exact Hstack; try exact Hinc.
  - right. exists (problem n). cbn. auto.
  - match goal with
    | Hbv : findBranchingVariable _ _ = _, Hne : _ <> (-1)%Z,
      Hval : branch_value = _ |- _ =>
        destruct (branch_value_finite _ _ _ Hbv Hne) as [a Ha];
        rewrite Ha in Hval; subst branch_value
    end.
    constructor; [|constructor; [|exact Hstack]]; cbn;
      [apply desc_down | apply desc_up]; exact Hn.
Qed.

Lemma loop_step_invariant (limit : Z) (p : Problem) (st st' : bb_state) :
  run_invariant p st ->
  loop_step limit p st = Some (Continue st') ->
  run_invariant p st'.
Proof.
  intros Hinv Hstep.
  destruct (loop_step_inv _ _ _ _ Hstep) as (n & rest & o & Hst & _ & Hnode).
  destruct Hinv as (Hstack & Hlog & Hinc). rewrite Hst in Hstack.
  inversion Hstack; subst.
  eapply node_step_invariant; [|split; [|split]|exact Hnode]; cbn; auto.
Qed.

Lemma initial_state_invariant (p : Problem) : run_invariant p (initial_state p).
Proof.
  unfold run_invariant, initial_state. cbn. split; [|split].
  - constructor; [apply desc_root|constructor].
  - constructor.
  - left. auto.
Qed.

Lemma run_invariant_holds (limit : Z) (p : Problem) (st : bb_state) :
  run limit p = Continue st -> run_invariant p st.
Proof.
  unfold run. apply bb_loop_invariant with (I := run_invariant p).
  - apply loop_step_invariant.
  - apply initial_state_invariant.
Qed.

(** ** The input problem is only read *)

Lemma node_step_log (p : Problem) (st : bb_state) (n : BBNode)
    (o : node_outcome) (st' : bb_state) :
  node_step p st n o st' ->
  log st' = log st ++ [mkLogEntry n (solveLPRelaxation (problem n))
                                  (best_objective st) o].
Proof. now destruct 1. Qed.




(** ** The integrality test (C3) *)

Lemma solveLPWithBounds_objective (q : Problem) :
  is_infeasible (solveLPWithBounds q) = false ->
  objective_value (solveLPWithBounds q)
  = calculateObjectiveValue q (solution (solveLPWithBounds q)).
Proof.
  unfold solveLPWithBounds.
  destruct (existsb has_infeasible_bounds (variables_ q)); [discriminate|].
  destruct (satisfyConstraints q _) as [[|] s]; [reflexivity|discriminate].
Qed.

(** C3 as the code has it: the specification promises rounded values and an
    objective recomputed from them; on [near_integer_problem] the solver
    reports the unrounded LP value 1 + 2^-21 and the LP objective, while
    the rounded value is 1. *)
Lemma integer_solution_not_rounded :
  status (solve 1000 near_integer_problem) = OPTIMAL
  /\ isIntegerFeasible (values (solve 1000 near_integer_problem))
                       near_integer_problem = true
  /\ values (solve 1000 near_integer_problem) = [near_integer_value]
  /\ map dround (values (solve 1000 near_integer_problem)) = [Fin 1]
  /\ values (solve 1000 near_integer_problem)
     <> map dround (values (solve 1000 near_integer_problem))
  /\ sol_objective_value (solve 1000 near_integer_problem)
     = near_integer_value
  /\ calculateObjectiveValue near_integer_problem
       (map dround (values (solve 1000 near_integer_problem)))
     = Fin 1.
Proof. vm_compute. repeat split; try reflexivity. discriminate. Qed.

Lemma shouldPrune_not_better (obj best : double) (t : ObjectiveType) :
  shouldPrune obj best t = true -> isBetterSolution obj best t = false.
Proof.
  unfold shouldPrune, isBetterSolution, dge, dgt.
  destruct t; generalize (best + d1e_6), (best - d1e_6); intros a b H;
    d_cases; q_solve.
Qed.

(** C3, amended: when a node's LP relaxation is feasible and its solution
    passes the integrality test, no child is pushed, and the incumbent
    becomes the LP solution and the LP objective exactly as the LP solver
    returned them (nothing is rounded, the objective is the one computed
    from the unrounded values) if that objective beats the incumbent by
    more than 1e-6; otherwise the incumbent is kept. *)
Theorem integer_feasible_node (p : Problem) (st : bb_state)
    (current_node : BBNode) :
  let lp := solveLPRelaxation (problem current_node) in
  is_infeasible lp = false ->
  isIntegerFeasible (solution lp) p = true ->
  exists st',
    process_node p st current_node = Continue st'
    /\ node_stack st' = node_stack st
    /\ objective_value lp
       = calculateObjectiveValue (problem current_node) (solution lp)
    /\ (if isBetterSolution (objective_value lp) (best_objective st)
                            (objective_type_ p)
        then best_objective st' = objective_value lp
             /\ best_solution st' = solution lp
        else best_objective st' = best_objective st
             /\ best_solution st' = best_solution st).
Proof.
  intros lp Hinf Hint. subst lp. unfold process_node.
  rewrite Hinf. unfold solveLPRelaxation at 1.
  rewrite solveLPWithBounds_is_unbounded. cbn [andb].
  destruct (shouldPrune _ _ _) eqn:Hprune.
  - rewrite (shouldPrune_not_better _ _ _ Hprune).
    eexists. split; [reflexivity|]. cbn.
    auto using solveLPWithBounds_objective.
  - rewrite Hint.
    destruct (isBetterSolution _ _ _); eexists; (split; [reflexivity|]);
      cbn; auto using solveLPWithBounds_objective.
Qed.

(** ** The initial assignment (C4) *)

(** C4 as the code has it: a variable with objective coefficient 0 in a
    minimisation starts at its upper bound, where the specification has the lower
    bound. *)
Lemma zero_coefficient_takes_other_bound :
  initial_value MINIMIZE zero_cost_variable = Fin 10
  /\ claimed_initial_value MINIMIZE zero_cost_variable = Fin 0
  /\ solution (solveLPRelaxation zero_cost_problem) = [Fin 10].
Proof. vm_compute. auto. Qed.

Lemma initial_value_favorable (t : ObjectiveType) (var : Variable_) :
  initial_value t var = favorable_initial_value t var.
Proof.
  unfold initial_value, favorable_initial_value, replace_infinite.
  destruct (dabs _ <? d1e_9); [reflexivity|].
  destruct t; destruct (coefficient_ var >? d0);
    match goal with
    | |- context [disinf ?b] => destruct b
    end; reflexivity.
Qed.

(** With no constraint nothing is repaired: the LP solution is the
    initial assignment. *)
Lemma satisfyConstraints_no_constraints (p : Problem) (s : vec) :
  constraints_ p = [] -> satisfyConstraints p s = (true, s).
Proof.
  intros Hc. unfold satisfyConstraints. cbn. unfold constraint_pass.
  now rewrite Hc.
Qed.

(** C4, amended: the initial assignment gives a fixed variable its fixed
    value and any other variable the bound favourable to the objective,
    the sign test being [coeff > 0] (for Minimize the lower bound if the
    coefficient is positive and otherwise the upper bound, for Maximize
    the upper bound if it is positive and otherwise the lower bound),
    with +inf replaced by 100 and -inf by 0; it is the LP solution when
    the problem has no constraint and no variable with crossed bounds. *)
Theorem initial_assignment (p : Problem) :
  map (initial_value (objective_type_ p)) (variables_ p)
  = map (favorable_initial_value (objective_type_ p)) (variables_ p)
  /\ (existsb has_infeasible_bounds (variables_ p) = false ->
      constraints_ p = [] ->
      solution (solveLPRelaxation p)
      = map (favorable_initial_value (objective_type_ p)) (variables_ p)).
Proof.
  assert (Heq : map (initial_value (objective_type_ p)) (variables_ p)
                = map (favorable_initial_value (objective_type_ p))
                      (variables_ p)).
  { apply map_ext. intros v. apply initial_value_favorable. }
  split; [exact Heq|].
  intros Hb Hc. unfold solveLPRelaxation, solveLPWithBounds.
  rewrite Hb, (satisfyConstraints_no_constraints _ _ Hc). exact Heq.
Qed.

(** ** Acceptance after the repair loop (C5) *)

(** C5 as the code has it: on [tenth_problem] the repair loop runs out
    with a total violation of exactly 0.1, which the specification accepts, and
    the solver reports the node infeasible. *)
Lemma violation_of_one_tenth_rejected :
  repair_loop MAX_ITERATIONS 0 tenth_problem
    (map (initial_value (objective_type_ tenth_problem))
         (variables_ tenth_problem))
  = (Exhausted, [d0_1])
  /\ total_violation tenth_problem [d0_1] = d0_1
  /\ (total_violation tenth_problem [d0_1] <=? d0_1) = true
  /\ is_infeasible (solveLPRelaxation tenth_problem) = true.
Proof. vm_compute. auto. Qed.

(** C5, amended: when the repair loop has run its 20 iterations without
    leaving early, the solver measures the total violation of the
    assignment reached and reports a solution if and only if that total
    is strictly below 0.1; otherwise it reports the problem infeasible. *)
Theorem acceptance_after_repair (p : Problem) (s : vec) :
  existsb has_infeasible_bounds (variables_ p) = false ->
  repair_loop MAX_ITERATIONS 0 p
    (map (initial_value (objective_type_ p)) (variables_ p))
  = (Exhausted, s) ->
  solution (solveLPRelaxation p) = s
  /\ is_infeasible (solveLPRelaxation p)
     = negb (total_violation p s <? d0_1).
Proof.
  intros Hb Hloop. unfold solveLPRelaxation, solveLPWithBounds.
  rewrite Hb. unfold satisfyConstraints. rewrite Hloop.
  destruct (total_violation p s <? d0_1); auto.
Qed.

(** ** The setters of the problem model (C7) *)

(** C7 as the code has it: an objective coefficient for a variable that
    does not exist is dropped without any error, and NaN is stored like
    any other coefficient or bound; a constraint coefficient for a
    variable that does not exist is stored too. *)
Lemma setters_signal_nothing :
  setObjectiveCoefficient zero_cost_problem 7 (Fin 1) <> Raised InvalidIndex
  /\ setObjectiveCoefficient zero_cost_problem 0 NaN <> Raised InvalidValue
  /\ setObjectiveCoefficient zero_cost_problem 7 (Fin 1)
     = Done zero_cost_problem
  /\ setObjectiveCoefficient zero_cost_problem (-1) (Fin 1)
     = Done zero_cost_problem
  /\ setObjectiveCoefficient zero_cost_problem 0 NaN
     = Done (with_variables zero_cost_problem
               [setCoefficient zero_cost_variable NaN])
  /\ setVariableBounds zero_cost_problem 0 NaN NaN
     = Some (Done (with_variables zero_cost_problem
                     [setBounds zero_cost_variable NaN NaN]))
  /\ (exists q, addConstraintCoefficient tenth_problem 0 7 NaN = Some (Done q)).
Proof.
  vm_compute. repeat split; try reflexivity; try discriminate.
  eexists. reflexivity.
Qed.

Lemma setObjectiveCoefficient_in_range (p : Problem) (i : Z) :
  (0 <=? i)%Z && (i <? getNumVariables p)%Z = true ->
  (Z.to_nat i < length (variables_ p))%nat.
Proof.
  rewrite andb_true_iff, Z.leb_le, Z.ltb_lt. unfold getNumVariables. lia.
Qed.

Lemma getVariable_updated (p : Problem) (i : Z) (v : Variable_) :
  (Z.to_nat i < length (variables_ p))%nat ->
  getVariable (with_variables p (<[Z.to_nat i := v]> (variables_ p))) i = v.
Proof.
  intros Hlen. unfold getVariable. cbn.
  now apply list_lookup_total_insert_eq.
Qed.

(** C7, amended: [setObjectiveCoefficient] never signals an error.  With
    an index out of range it leaves the problem as it was; with an index
    in range it stores the coefficient it is given, NaN included, in that
    variable and changes nothing else.  Setting bounds through
    [getVariable] and a constraint coefficient through [getConstraint]
    store what they are given, NaN included, when the index is in range,
    without signalling anything. *)
Theorem setters_never_raise (p : Problem) (i : Z) (x y : double) :
  (exists p', setObjectiveCoefficient p i x = Done p')
  /\ ((i < 0 \/ getNumVariables p <= i)%Z ->
      setObjectiveCoefficient p i x = Done p)
  /\ ((0 <= i < getNumVariables p)%Z ->
      exists p',
        setObjectiveCoefficient p i x = Done p'
        /\ coefficient_ (getVariable p' i) = x
        /\ name_ (getVariable p' i) = name_ (getVariable p i)
        /\ type_ (getVariable p' i) = type_ (getVariable p i)
        /\ lower_bound_ (getVariable p' i) = lower_bound_ (getVariable p i)
        /\ upper_bound_ (getVariable p' i) = upper_bound_ (getVariable p i)
        /\ constraints_ p' = constraints_ p
        /\ forall j, j <> Z.to_nat i ->
             variables_ p' !! j = variables_ p !! j)
  /\ ((0 <= i < getNumVariables p)%Z ->
      exists p',
        setVariableBounds p i x y = Some (Done p')
        /\ lower_bound_ (getVariable p' i) = x
        /\ upper_bound_ (getVariable p' i) = y)
  /\ (forall v : Z,
        (0 <= i < getNumConstraints p)%Z ->
        exists p',
          addConstraintCoefficient p i v x = Some (Done p')
          /\ coefficients_ (constraints_ p' !!! Z.to_nat i) !! v = Some x).
Proof.
  split; [|split; [|split; [|split]]].
  - unfold setObjectiveCoefficient. destruct (_ && _); eauto.
  - intros Hout. unfold setObjectiveCoefficient.
    destruct ((0 <=? i)%Z && (i <? getNumVariables p)%Z) eqn:E;
      [|reflexivity].
    apply andb_true_iff in E. rewrite Z.leb_le, Z.ltb_lt in E. lia.
  - intros Hin. unfold setObjectiveCoefficient.
    assert (E : (0 <=? i)%Z && (i <? getNumVariables p)%Z = true).
    { apply andb_true_iff. rewrite Z.leb_le, Z.ltb_lt. lia. }
    rewrite E. eexists. split; [reflexivity|].
    pose proof (setObjectiveCoefficient_in_range _ _ E) as Hlen.
    rewrite !getVariable_updated by exact Hlen.
    cbn. repeat split; auto; intros j Hj; now apply list_lookup_insert_ne.
  - intros Hin. unfold setVariableBounds.
    assert (E : (0 <=? i)%Z && (i <? getNumVariables p)%Z = true).
    { apply andb_true_iff. rewrite Z.leb_le, Z.ltb_lt. lia. }
    rewrite E. eexists. split; [reflexivity|].
    pose proof (setObjectiveCoefficient_in_range _ _ E) as Hlen.
    rewrite !getVariable_updated by exact Hlen. auto.
  - intros v Hin. unfold addConstraintCoefficient.
    assert (E : (0 <=? i)%Z && (i <? getNumConstraints p)%Z = true).
    { apply andb_true_iff. rewrite Z.leb_le, Z.ltb_lt. lia. }
    rewrite E. eexists. split; [reflexivity|].
    cbn [constraints_].
    rewrite list_lookup_total_insert_eq
      by (unfold getNumConstraints in Hin; lia).
    cbn. apply lookup_insert_eq.
Qed.

(** ** Finite data stay finite in the LP heuristic *)

Lemma forallb_Forall {A : Type} (f : A -> bool) (l : list A) :
  forallb f l = true <-> Forall (fun x => f x = true) l.
Proof.
  induction l as [|x l IH]; cbn.
  - split; auto.
  - rewrite andb_true_iff, IH. split.
    + intros [? ?]. now constructor.
    + now inversion 1.
Qed.

Lemma fold_left_invariant {A B : Type} (P : A -> Prop) (f : A -> B -> A)
    (l : list B) (a : A) :
  P a -> (forall a b, b ∈ l -> P a -> P (f a b)) -> P (fold_left f l a).
Proof.
  revert a. induction l as [|b l IH]; intros a Ha Hf; cbn; [exact Ha|].
  apply IH.
  - apply Hf; [left|exact Ha].
  - intros a' b' Hb'. apply Hf. now right.
Qed.














Lemma length_vset (s : vec) (i : Z) (x : double) :
  length (vset s i x) = length s.
Proof. apply length_insert. Qed.
















(** ** What an accepted LP solution satisfies *)

(** Treats the absolute values in sight as unknowns, for [lra]. *)
Ltac q_abs :=
  repeat match goal with
         | H : context [Qabs ?x] |- _ => revert H
         end;
  repeat match goal with
         | |- context [Qabs ?x] => generalize (Qabs x)
         end;
  intros.


Lemma isSatisfied_within (c : Constraint) (s : vec) :
  isSatisfied c s = isSatisfiedWithin d1e_9 c s.
Proof. reflexivity. Qed.











(** ** The solution returned by [solve] *)

Lemma fold_setValue_values (b : vec) (n m : nat) :
  length b = n -> (m <= n)%nat ->
  values (fold_left (fun s i => setValue s i (b !!! i)) (seq 0 m)
                    (newSolution n))
  = take m b ++ replicate (n - m) d0.
Proof.
  intros Hb. induction m as [|m IH]; intros Hm.
  - cbn. now rewrite Nat.sub_0_r.
  - rewrite seq_S, fold_left_app. cbn [fold_left setValue values Nat.add].
    rewrite IH by lia.
    destruct (lookup_lt_is_Some_2 b m) as [x Hx]; [lia|].
    rewrite (list_lookup_total_correct _ _ _ Hx).
    rewrite (take_S_r _ _ _ Hx).
    replace (n - m)%nat with (S (n - S m)) by lia. cbn [replicate].
    rewrite insert_app_r_alt by (rewrite length_take; lia).
    rewrite length_take. replace (m - m `min` length b)%nat with 0%nat by lia.
    cbn. now rewrite <- app_assoc.
Qed.

Lemma values_finish (limit : Z) (p : Problem) (st : bb_state) :
  length (best_solution st) = length (variables_ p) ->
  values (finish limit p st) = best_solution st.
Proof.
  intros Hlen. unfold finish. cbn [setStatus setIterations setObjectiveValue values].
  rewrite (fold_setValue_values _ (length (variables_ p))) by auto.
  rewrite Nat.sub_diag, <- Hlen, firstn_all. apply app_nil_r.
Qed.

(** ** Well-formed data along the tree *)







Lemma descendant_length (p q : Problem) :
  descendant p q -> length (variables_ q) = length (variables_ p).
Proof.
  intros H. apply descendant_same_but_bounds in H.
  destruct H as (_ & _ & _ & H). symmetry. eapply Forall2_length; eauto.
Qed.



(** ** Finite bounds are respected by the LP heuristic *)











(** ** Bounds along the tree *)












(** ** Quality of a solution reported as optimal (C1) *)



(** ** The fuel of the loop *)

Lemma node_step_nodes_processed (p : Problem) (st : bb_state) (n : BBNode)
    (o : node_outcome) (st' : bb_state) :
  node_step p st n o st' -> nodes_processed st' = nodes_processed st.
Proof. now destruct 1. Qed.

Lemma loop_step_nodes_processed (limit : Z) (p : Problem)
    (st st' : bb_state) :
  loop_step limit p st = Some (Continue st') ->
  (nodes_processed st < limit
   /\ nodes_processed st' = nodes_processed st + 1)%Z.
Proof.
  intros H. destruct (loop_step_inv _ _ _ _ H) as (n & rest & o & _ & Hl & Hn).
  apply node_step_nodes_processed in Hn. cbn in Hn. auto.
Qed.

Lemma loop_step_stops (limit : Z) (p : Problem) (st : bb_state) :
  (limit <= nodes_processed st)%Z -> loop_step limit p st = None.
Proof.
  intros H. unfold loop_step. destruct (node_stack st); [reflexivity|].
  destruct (Z.ltb_spec (nodes_processed st) limit); [lia|reflexivity].
Qed.

(** [Z.to_nat iteration_limit] turns are enough: the loop has stopped by
    itself by then, and more fuel changes nothing. *)
Lemma bb_loop_fuel (limit : Z) (p : Problem) (fuel : nat) :
  forall (st : bb_state) (extra : nat),
    (limit - nodes_processed st <= Z.of_nat fuel)%Z ->
    bb_loop (fuel + extra) limit p st = bb_loop fuel limit p st.
Proof.
  induction fuel as [|fuel IH]; intros st extra Hfuel.
  - cbn [Nat.add bb_loop]. destruct extra as [|extra]; [reflexivity|].
    cbn [bb_loop]. rewrite loop_step_stops by lia. reflexivity.
  - cbn [Nat.add bb_loop].
    destruct (loop_step limit p st) as [[st'|]|] eqn:Hstep; try reflexivity.
    destruct (loop_step_nodes_processed _ _ _ _ Hstep) as [_ Hnp].
    apply IH. lia.
Qed.

Lemma run_fuel (limit : Z) (p : Problem) (extra : nat) :
  bb_loop (Z.to_nat limit + extra) limit p (initial_state p) = run limit p.
Proof. unfold run. apply bb_loop_fuel. cbn. lia. Qed.

(** ** Pruning by the bound (C2) *)

(** C2: the bound test discards a node that holds a better integer
    point.  On [pruned_problem] the third node processed, the Up child x >= 1 of
    the root, is discarded by the bound test: its LP value is 26.25 and
    the incumbent is 10.  Yet [better_point] lies within that node's
    bounds, satisfies every constraint, has an integer x and costs 1.5,
    which beats the incumbent by far more than the pruning tolerance;
    [solve] returns the incumbent 10 as optimal. *)
Lemma bound_prune_discards_better_point :
  exists e,
    solve_log 1000 pruned_problem !! 2%nat = Some e
    /\ log_outcome e = BoundPruned
    /\ objective_value (log_lp e) = Fin (105 # 4)
    /\ log_best_before e = Fin 10
    /\ isValidSolution (problem (log_node e)) better_point = true
    /\ isIntegerFeasible better_point pruned_problem = true
    /\ calculateObjectiveValue pruned_problem better_point = Fin (3 # 2)
    /\ isBetterSolution (calculateObjectiveValue pruned_problem better_point)
                        (log_best_before e) MINIMIZE = true
    /\ status (solve 1000 pruned_problem) = OPTIMAL
    /\ sol_objective_value (solve 1000 pruned_problem) = Fin 10.
Proof. eexists. split; [vm_compute; reflexivity|]. vm_compute. auto 12. Qed.

(** ** The theorems at concrete inputs *)


Lemma integer_feasible_node_witness :
  exists st',
    process_node near_integer_problem (first_turn near_integer_problem)
                 (root_node near_integer_problem) = Continue st'
    /\ node_stack st' = []
    /\ best_objective st' = near_integer_value
    /\ best_solution st' = [near_integer_value].
Proof.
  destruct (integer_feasible_node near_integer_problem
              (first_turn near_integer_problem)
              (root_node near_integer_problem))
    as (st' & Hstep & Hstack & _ & Hbest);
    [vm_compute; reflexivity ..|].
  exists st'. split; [exact Hstep|]. split; [exact Hstack|]. exact Hbest.
Defined.

Lemma initial_assignment_witness :
  solution (solveLPRelaxation zero_cost_problem)
  = map (favorable_initial_value MINIMIZE) [zero_cost_variable].
Proof.
  apply (proj2 (initial_assignment zero_cost_problem)); reflexivity.
Defined.

Lemma acceptance_after_repair_witness :
  solution (solveLPRelaxation tenth_problem) = [d0_1]
  /\ is_infeasible (solveLPRelaxation tenth_problem)
     = negb (total_violation tenth_problem [d0_1] <? d0_1).
Proof.
  apply (acceptance_after_repair tenth_problem [d0_1]);
    vm_compute; reflexivity.
Defined.


Lemma setters_never_raise_witness :
  exists p',
    setObjectiveCoefficient zero_cost_problem 0 NaN = Done p'
    /\ coefficient_ (getVariable p' 0) = NaN.
Proof.
  destruct (proj1 (proj2 (proj2 (setters_never_raise zero_cost_problem 0
                                    NaN NaN))))
    as (p' & Hset & Hco & _); [split; [lia|reflexivity]|].
  exists p'. auto.
Defined.

(** * Further properties of the model, the LP heuristic and the driver *)

(** ** Shape of an LP result *)

Lemma adjust_variable_length (p : Problem) (coeffs : gmap Z double)
    (t w : double) (s : vec) (k : Z) :
  length (adjust_variable p coeffs t w s k) = length s.
Proof.
  unfold adjust_variable. destruct (coeffs !! k); [|reflexivity].
  apply length_vset.
Qed.

Lemma fixConstraintViolation_length (p : Problem) (s : vec) (c : Constraint)
    (lhs rhs : double) (type : ConstraintType) :
  length (fixConstraintViolation p s c lhs rhs type) = length s.
Proof.
  unfold fixConstraintViolation. destruct (dabs _ <? d1e_9); [reflexivity|].
  destruct (collect_adjustable _ _ _ _) as [adj w].
  destruct (_ || _); [reflexivity|].
  apply fold_left_invariant with (P := fun s' : vec => length s' = length s);
    [reflexivity|].
  intros s' k _ Hs'. now rewrite adjust_variable_length.
Qed.

Lemma constraint_pass_length (p : Problem) (s : vec) :
  length (constraint_pass p s).1.1 = length s.
Proof.
  unfold constraint_pass.
  apply fold_left_invariant
    with (P := fun st : vec * bool * double => length st.1.1 = length s);
    [reflexivity|].
  intros [[s' a] m] c _ Hs'. unfold check_constraint. cbn [fst snd] in *.
  destruct (violation_of _ _ _ _); [|exact Hs']. cbn [fst snd].
  now rewrite fixConstraintViolation_length.
Qed.

Lemma repair_loop_length (p : Problem) (n : nat) :
  forall (iter : Z) (s : vec), length (repair_loop n iter p s).2 = length s.
Proof.
  induction n as [|n IH]; intros iter s; cbn [repair_loop]; [reflexivity|].
  pose proof (constraint_pass_length p s) as Hpass.
  destruct (constraint_pass p s) as [[s' a] m]. cbn [fst snd] in Hpass.
  destruct a; [exact Hpass|].
  destruct ((iter >? 5)%Z && (m >? d1)); [exact Hpass|].
  now rewrite IH.
Qed.

Lemma satisfyConstraints_length (p : Problem) (s : vec) :
  length (satisfyConstraints p s).2 = length s.
Proof.
  unfold satisfyConstraints.
  pose proof (repair_loop_length p MAX_ITERATIONS 0 s) as H.
  destruct (repair_loop MAX_ITERATIONS 0 p s) as [[| |] s']; exact H.
Qed.

Lemma solveLPWithBounds_length (p : Problem) :
  length (solution (solveLPWithBounds p)) = length (variables_ p).
Proof.
  unfold solveLPWithBounds.
  destruct (existsb has_infeasible_bounds (variables_ p)).
  - cbn. apply length_replicate.
  - pose proof (satisfyConstraints_length p
                  (map (initial_value (objective_type_ p)) (variables_ p)))
      as H.
    destruct (satisfyConstraints p _) as [[|] s]; cbn in *;
      now rewrite H, length_map.
Qed.

(** X1: whatever the problem, the LP result has one value per variable,
    reports one iteration, and has [is_optimal] set, also when it reports
    the problem infeasible: the flag is set at the start and never
    cleared. *)
Theorem lp_result_shape (p : Problem) :
  length (solution (solveLPRelaxation p)) = length (variables_ p)
  /\ iterations (solveLPRelaxation p) = 1%Z
  /\ is_optimal (solveLPRelaxation p) = true.
Proof.
  split; [apply solveLPWithBounds_length|].
  unfold solveLPRelaxation, solveLPWithBounds.
  destruct (existsb has_infeasible_bounds (variables_ p)); [auto|].
  destruct (satisfyConstraints p _) as [[|] s]; auto.
Qed.

(** ** Accounting of a run *)

Lemma loop_step_counter (limit : Z) (p : Problem) (st st' : bb_state) :
  (0 <= nodes_processed st <= Z.max 0 limit)%Z ->
  loop_step limit p st = Some (Continue st') ->
  (1 <= nodes_processed st' <= Z.max 0 limit)%Z.
Proof.
  intros H Hstep.
  destruct (loop_step_nodes_processed _ _ _ _ Hstep) as [Hlt ->]. lia.
Qed.

Lemma run_counter (limit : Z) (p : Problem) (st : bb_state) :
  run limit p = Continue st ->
  (0 <= nodes_processed st <= Z.max 0 limit)%Z
  /\ (nodes_processed st = 0%Z ->
      best_objective st = initial_best (objective_type_ p)).
Proof.
  unfold run.
  apply bb_loop_invariant
    with (I := fun st =>
                 (0 <= nodes_processed st <= Z.max 0 limit)%Z
                 /\ (nodes_processed st = 0%Z ->
                     best_objective st = initial_best (objective_type_ p))).
  - intros st0 st1 [H _] Hstep.
    pose proof (loop_step_counter _ _ _ _ H Hstep). split; lia.
  - cbn. split; [lia|auto].
Qed.

(** With enough fuel the loop ends because its guard fails. *)
Lemma bb_loop_ends (limit : Z) (p : Problem) (fuel : nat) :
  forall st st' : bb_state,
    (limit - nodes_processed st <= Z.of_nat fuel)%Z ->
    bb_loop fuel limit p st = Continue st' ->
    loop_step limit p st' = None.
Proof.
  induction fuel as [|fuel IH]; intros st st' Hfuel; cbn [bb_loop].
  - intros [= <-]. apply loop_step_stops. lia.
  - destruct (loop_step limit p st) as [[st1|]|] eqn:Hstep.
    + destruct (loop_step_nodes_processed _ _ _ _ Hstep) as [_ Hnp].
      apply IH. lia.
    + discriminate.
    + now intros [= <-].
Qed.

Lemma run_ends (limit : Z) (p : Problem) (st : bb_state) :
  run limit p = Continue st -> loop_step limit p st = None.
Proof. unfold run. apply bb_loop_ends. cbn. lia. Qed.

Lemma loop_step_None (limit : Z) (p : Problem) (st : bb_state) :
  loop_step limit p st = None ->
  node_stack st = [] \/ (limit <= nodes_processed st)%Z.
Proof.
  unfold loop_step. destruct (node_stack st); [auto|].
  destruct (Z.ltb_spec (nodes_processed st) limit); [discriminate|auto].
Qed.

Lemma incumbent_length (p : Problem) (st : bb_state) :
  incumbent_from p st -> length (best_solution st) = length (variables_ p).
Proof.
  intros [[_ ->]|(q & Hq & _ & -> & _)].
  - apply length_replicate.
  - unfold solveLPRelaxation. rewrite solveLPWithBounds_length.
    now apply descendant_length.
Qed.

Lemma run_values (limit : Z) (p : Problem) (st : bb_state) :
  run limit p = Continue st ->
  values (finish limit p st) = best_solution st.
Proof.
  intros Hrun. apply values_finish. apply incumbent_length.
  now destruct (run_invariant_holds _ _ _ Hrun) as (_ & _ & H).
Qed.

(** X2: [solve] always returns one value per variable and an iteration
    count between 0 and the iteration limit; the status is OPTIMAL,
    INFEASIBLE or ITERATION_LIMIT (never TIME_LIMIT or UNKNOWN); OPTIMAL
    is reported only when fewer nodes than the limit were processed and
    the frontier ran empty, ITERATION_LIMIT only with exactly [limit]
    nodes processed. *)
Theorem solve_accounting (limit : Z) (p : Problem) :
  exists st,
    run limit p = Continue st
    /\ length (values (solve limit p)) = length (variables_ p)
    /\ sol_iterations (solve limit p) = nodes_processed st
    /\ (0 <= sol_iterations (solve limit p) <= Z.max 0 limit)%Z
    /\ (status (solve limit p) = OPTIMAL
        \/ status (solve limit p) = INFEASIBLE
        \/ status (solve limit p) = ITERATION_LIMIT)
    /\ (status (solve limit p) = OPTIMAL ->
        (sol_iterations (solve limit p) < limit)%Z /\ node_stack st = [])
    /\ (status (solve limit p) = ITERATION_LIMIT ->
        sol_iterations (solve limit p) = limit /\ (1 <= limit)%Z).
Proof.
  destruct (solve_finish limit p) as (st & Hrun & ->).
  exists st. split; [exact Hrun|].
  pose proof (run_counter _ _ _ Hrun) as [Hnp Hzero].
  pose proof (loop_step_None _ _ _ (run_ends _ _ _ Hrun)) as Hend.
  rewrite (run_values _ _ _ Hrun), status_finish.
  split.
  { apply incumbent_length.
    now destruct (run_invariant_holds _ _ _ Hrun) as (_ & _ & H). }
  split; [reflexivity|]. cbn [finish setStatus sol_iterations setIterations].
  split; [exact Hnp|].
  unfold final_status.
  destruct (deqb (best_objective st) PInf || deqb (best_objective st) NInf)
    eqn:Hinf.
  { split; [auto|]. split; discriminate. }
  destruct (Z.geb_spec (nodes_processed st) limit) as [Hge|Hlt].
  - split; [auto|]. split; [discriminate|]. intros _.
    assert (nodes_processed st <> 0%Z).
    { intros H0. rewrite (Hzero H0) in Hinf.
      destruct (objective_type_ p); discriminate. }
    lia.
  - split; [auto|]. split; [|discriminate]. intros _. split; [lia|].
    destruct Hend; [assumption|lia].
Qed.

(** ** The incumbent never degrades *)

Lemma isBetterSolution_trans (a b c : double) (t : ObjectiveType) :
  isBetterSolution a b t = true -> isBetterSolution b c t = true ->
  isBetterSolution a c t = true.
Proof.
  unfold isBetterSolution, dgt, d1e_6. intros H1 H2.
  destruct t; d_cases; q_solve.
Qed.

Lemma not_worse_trans (t : ObjectiveType) (a b c : double) :
  not_worse t a b -> not_worse t b c -> not_worse t a c.
Proof.
  unfold not_worse. intros [->|H1] [->|H2]; auto. right.
  eapply isBetterSolution_trans; eauto.
Qed.

Lemma node_step_best (p : Problem) (st : bb_state) (n : BBNode)
    (o : node_outcome) (st' : bb_state) :
  node_step p st n o st' ->
  not_worse (objective_type_ p) (best_objective st') (best_objective st).
Proof. destruct 1; cbn; unfold not_worse; auto. Qed.

Lemma loop_step_monotone (limit : Z) (p : Problem) (st st' : bb_state) :
  Forall (fun e => not_worse (objective_type_ p) (best_objective st)
                             (log_best_before e)) (log st) ->
  loop_step limit p st = Some (Continue st') ->
  Forall (fun e => not_worse (objective_type_ p) (best_objective st')
                             (log_best_before e)) (log st').
Proof.
  intros Hinv Hstep.
  destruct (loop_step_inv _ _ _ _ Hstep) as (n & rest & o & _ & _ & Hnode).
  pose proof (node_step_best _ _ _ _ _ Hnode) as Hbest.
  rewrite (node_step_log _ _ _ _ _ Hnode). cbn in *.
  apply Forall_app. split.
  - eapply Forall_impl; [exact Hinv|]. intros e He.
    eapply not_worse_trans; eauto.
  - constructor; [exact Hbest|constructor].
Qed.

(** X3: over a run the incumbent objective never degrades: the objective
    [solve] returns is, for every node processed, the incumbent objective
    that node met or one that beats it by more than 1e-6. *)
Theorem incumbent_never_degrades (limit : Z) (p : Problem) :
  Forall (fun e => not_worse (objective_type_ p)
                             (sol_objective_value (solve limit p))
                             (log_best_before e))
         (solve_log limit p).
Proof.
  destruct (solve_finish limit p) as (st & Hrun & ->).
  unfold solve_log. rewrite Hrun. cbn. revert Hrun. unfold run.
  apply bb_loop_invariant
    with (I := fun st =>
                 Forall (fun e => not_worse (objective_type_ p)
                                            (best_objective st)
                                            (log_best_before e)) (log st)).
  - apply loop_step_monotone.
  - constructor.
Qed.

(** ** The two objective tests *)

(** X4: on objectives that are not NaN the two tests of the driver are
    complementary: an LP objective is better than the incumbent by more
    than 1e-6 exactly when the bound test does not prune it. *)
Theorem better_iff_not_pruned (obj best : double) (t : ObjectiveType) :
  disnan obj = false -> disnan best = false ->
  isBetterSolution obj best t = negb (shouldPrune obj best t).
Proof.
  unfold isBetterSolution, shouldPrune, dge, dgt, d1e_6. intros Ho Hb.
  destruct t, obj, best; try discriminate; cbn; unfold Qltb;
    try reflexivity; now rewrite ?negb_involutive.
Qed.

(** ** Integrality test and branching variable agree *)

(** X5: [findBranchingVariable] returns -1 exactly when the solution
    passes [isIntegerFeasible]; the driver, which asks for a branching
    variable only after the integrality test failed, therefore always
    gets one. *)
Theorem no_branching_variable_iff_integer_feasible (sol : vec) (p : Problem) :
  findBranchingVariable sol p = (-1)%Z <-> isIntegerFeasible sol p = true.
Proof.
  split.
  - intros Hbv. destruct (isIntegerFeasible sol p) eqn:Hint; [reflexivity|].
    destruct (findBranchingVariable_found _ _ Hint) as (k & Hk & _). lia.
  - intros Hint.
    destruct (findBranchingVariable_spec sol p)
      as [[H _]|(k & _ & var & val & Hv & Hs & Hc & _)]; [exact H|].
    rewrite (isIntegerFeasible_true _ _ _ _ _ Hint Hv Hs) in Hc.
    discriminate.
Qed.

(** ** Runs that end at the root *)

Lemma finish_eq (limit : Z) (p : Problem) (st : bb_state) :
  length (best_solution st) = length (variables_ p) ->
  finish limit p st
  = mkSolution (final_status limit st) (best_solution st)
               (best_objective st) (nodes_processed st).
Proof.
  intros Hlen. pose proof (values_finish limit p st Hlen) as Hv.
  unfold finish in *.
  cbn [setStatus setIterations setObjectiveValue values status
       sol_objective_value sol_iterations] in Hv.
  unfold setStatus, setIterations, setObjectiveValue.
  cbn [values status sol_objective_value sol_iterations].
  now rewrite Hv.
Qed.

Lemma run_single_node (limit : Z) (p : Problem) (st1 : bb_state) :
  (1 <= limit)%Z ->
  process_node p (first_turn p) (root_node p) = Continue st1 ->
  node_stack st1 = [] ->
  run limit p = Continue st1.
Proof.
  intros Hlim Hstep Hstack. unfold run.
  destruct (Z.to_nat limit) as [|fuel] eqn:Hfuel; [lia|].
  cbn [bb_loop]. unfold loop_step at 1. cbn [initial_state node_stack
    nodes_processed best_objective best_solution nodes_pruned log].
  destruct (Z.ltb_spec 0 limit) as [_|]; [|lia].
  change (mkState [] (initial_best (objective_type_ p))
                  (replicate (length (variables_ p)) d0) (0 + 1) 0 [])
    with (first_turn p).
  rewrite Hstep.
  destruct fuel as [|fuel]; [reflexivity|]. cbn [bb_loop].
  unfold loop_step. now rewrite Hstack.
Qed.

Lemma crossed_bounds_infeasible (p : Problem) :
  existsb has_infeasible_bounds (variables_ p) = true ->
  is_infeasible (solveLPRelaxation p) = true
  /\ solution (solveLPRelaxation p) = zeros p.
Proof.
  intros H. unfold solveLPRelaxation, solveLPWithBounds. now rewrite H.
Qed.

(** X6: when the LP relaxation of the input is infeasible, which is the
    case as soon as one variable has [lower > upper + 1e-9], [solve] with
    a limit of at least one node stops after that node and returns the
    status INFEASIBLE with all values zero and the initial infinite
    objective. *)
Theorem root_infeasible (limit : Z) (p : Problem) :
  (1 <= limit)%Z ->
  is_infeasible (solveLPRelaxation p) = true ->
  solve limit p
  = mkSolution INFEASIBLE (zeros p) (initial_best (objective_type_ p)) 1.
Proof.
  intros Hlim Hinf.
  assert (Hrun : run limit p
                 = Continue
                     (mkState [] (initial_best (objective_type_ p)) (zeros p)
                        1 1
                        [mkLogEntry (root_node p) (solveLPRelaxation p)
                           (initial_best (objective_type_ p)) LPInfeasible])).
  { apply run_single_node; [exact Hlim| |reflexivity].
    unfold process_node. cbn [problem root_node]. now rewrite Hinf. }
  unfold solve. rewrite Hrun, finish_eq by apply length_replicate.
  cbn. unfold final_status. cbn.
  now destruct (objective_type_ p).
Qed.

Lemma shouldPrune_initial (v : Q) (t : ObjectiveType) :
  shouldPrune (Fin v) (initial_best t) t = false.
Proof. now destruct t. Qed.

Lemma isBetterSolution_initial (v : Q) (t : ObjectiveType) :
  isBetterSolution (Fin v) (initial_best t) t = true.
Proof. now destruct t. Qed.

(** X7: when the LP relaxation of the input is feasible, passes the
    integrality test and has a finite objective, [solve] processes that
    single node and returns the LP solution and the LP objective
    unchanged; the status is OPTIMAL when the iteration limit is at least
    2, and ITERATION_LIMIT when the limit is 1, although the search is
    complete. *)
Theorem root_integer_feasible (limit : Z) (p : Problem) (v : Q) :
  (1 <= limit)%Z ->
  is_infeasible (solveLPRelaxation p) = false ->
  isIntegerFeasible (solution (solveLPRelaxation p)) p = true ->
  objective_value (solveLPRelaxation p) = Fin v ->
  solve limit p
  = mkSolution (if (2 <=? limit)%Z then OPTIMAL else ITERATION_LIMIT)
               (solution (solveLPRelaxation p)) (Fin v) 1.
Proof.
  intros Hlim Hinf Hint Hobj.
  assert (Hrun : run limit p
                 = Continue
                     (mkState [] (Fin v) (solution (solveLPRelaxation p))
                        1 0
                        [mkLogEntry (root_node p) (solveLPRelaxation p)
                           (initial_best (objective_type_ p))
                           (IntegerFeasible true)])).
  { apply run_single_node; [exact Hlim| |reflexivity].
    unfold process_node. cbn [problem root_node]. rewrite Hinf.
    unfold solveLPRelaxation at 1. rewrite solveLPWithBounds_is_unbounded.
    cbn [andb first_turn best_objective]. rewrite Hobj.
    rewrite shouldPrune_initial, Hint, isBetterSolution_initial.
    reflexivity. }
  unfold solve. rewrite Hrun, finish_eq
    by (cbn; apply solveLPWithBounds_length).
  cbn. unfold final_status. cbn.
  destruct (Z.geb_spec 1 limit), (Z.leb_spec 2 limit); try lia; reflexivity.
Qed.

Lemma all_continuous_integer_feasible (p : Problem) (sol : vec) :
  all_continuous p = true -> isIntegerFeasible sol p = true.
Proof.
  unfold all_continuous, isIntegerFeasible.
  generalize (variables_ p). intros vars. revert sol.
  induction vars as [|var vars IH]; intros [|x sol]; cbn [combine forallb];
    try reflexivity.
  rewrite !andb_true_iff. intros [Hv Hvs]. split; [|auto].
  apply negb_true_iff in Hv. now rewrite Hv.
Qed.

(** X8: a problem without Integer or Binary variables is never branched
    on: with a limit of at least one node, [solve] processes exactly one
    node, whatever its LP relaxation gives. *)
Theorem continuous_problem_single_node (limit : Z) (p : Problem) :
  (1 <= limit)%Z ->
  all_continuous p = true ->
  sol_iterations (solve limit p) = 1%Z.
Proof.
  intros Hlim Hcont.
  destruct (process_node_continues p (first_turn p) (root_node p))
    as [st1 Hstep].
  destruct (process_node_step _ _ _ _ Hstep) as [o Hnode].
  assert (Hst1 : node_stack st1 = [] /\ nodes_processed st1 = 1%Z).
  { destruct Hnode; cbn; auto.
    all: match goal with
         | H : isIntegerFeasible _ _ = false |- _ =>
             rewrite (all_continuous_integer_feasible _ _ Hcont) in H;
             discriminate
         end. }
  destruct Hst1 as (Hstack & Hnp).
  pose proof (run_single_node _ _ _ Hlim Hstep Hstack) as Hrun.
  unfold solve, solve_log. rewrite Hrun. cbn. auto.
Qed.

(** X9: with an iteration limit of zero or less no node is processed:
    [solve] returns the status INFEASIBLE, all values zero and the initial
    infinite objective, whatever the problem. *)
Theorem no_iterations_allowed (limit : Z) (p : Problem) :
  (limit <= 0)%Z ->
  solve limit p
  = mkSolution INFEASIBLE (zeros p) (initial_best (objective_type_ p)) 0.
Proof.
  intros Hlim. unfold solve, run.
  replace (Z.to_nat limit) with 0%nat by lia. cbn [bb_loop].
  rewrite finish_eq by apply length_replicate.
  cbn. unfold final_status. cbn. now destruct (objective_type_ p).
Qed.

(** ** What a returned incumbent is *)

Lemma final_status_feasible (limit : Z) (st : bb_state) :
  final_status limit st <> INFEASIBLE ->
  best_objective st <> PInf /\ best_objective st <> NInf.
Proof.
  unfold final_status.
  destruct (best_objective st); cbn; try congruence; split; discriminate.
Qed.

(** The solution returned with a status other than INFEASIBLE is the LP
    solution of a descendant of the input that passed the integrality
    test, with that LP's objective. *)
Lemma incumbent_from_descendant (limit : Z) (p : Problem) :
  status (solve limit p) <> INFEASIBLE ->
  exists q,
    descendant p q
    /\ is_infeasible (solveLPRelaxation q) = false
    /\ isIntegerFeasible (solution (solveLPRelaxation q)) p = true
    /\ values (solve limit p) = solution (solveLPRelaxation q)
    /\ sol_objective_value (solve limit p)
       = objective_value (solveLPRelaxation q).
Proof.
  destruct (solve_finish limit p) as (st & Hrun & ->).
  rewrite status_finish. intros Hst.
  destruct (final_status_feasible _ _ Hst) as [HP HN].
  rewrite (run_values _ _ _ Hrun).
  destruct (run_invariant_holds _ _ _ Hrun) as (_ & _ & [[Hinit _]|Hinc]).
  - destruct (objective_type_ p); cbn in Hinit; congruence.
  - destruct Hinc as (q & Hq & Hinf & Hsol & Hobj & Hint).
    exists q. rewrite <- Hsol, <- Hobj. repeat split; auto.
    now rewrite Hsol.
Qed.

Lemma calculateObjectiveValue_coefficients (vs ws : list Variable_) :
  Forall2 same_but_bounds vs ws ->
  forall (s : vec) (a : double),
    fold_left (fun value '(v, x) => value + coefficient_ v * x)
              (combine vs s) a
    = fold_left (fun value '(v, x) => value + coefficient_ v * x)
                (combine ws s) a.
Proof.
  induction 1 as [|v w vs ws Hvw _ IH]; intros s a; [reflexivity|].
  destruct s as [|x s]; [reflexivity|]. cbn [combine fold_left].
  destruct Hvw as (_ & _ & ->). apply IH.
Qed.

(** X10: whenever [solve] returns an incumbent (status OPTIMAL or
    ITERATION_LIMIT), the objective it reports is the objective function
    of the input problem evaluated at the values it reports. *)
Theorem reported_objective_matches_values (limit : Z) (p : Problem) :
  status (solve limit p) <> INFEASIBLE ->
  sol_objective_value (solve limit p)
  = calculateObjectiveValue p (values (solve limit p)).
Proof.
  intros Hst.
  destruct (incumbent_from_descendant _ _ Hst)
    as (q & Hq & Hinf & _ & -> & ->).
  unfold solveLPRelaxation in *.
  rewrite (solveLPWithBounds_objective q Hinf).
  unfold calculateObjectiveValue. symmetry.
  apply calculateObjectiveValue_coefficients.
  now destruct (descendant_same_but_bounds _ _ Hq) as (_ & _ & _ & H).
Qed.


(** ** Valid solutions and branching *)

Lemma combine_forallb_Forall2 {A B : Type} (f : A -> B -> bool)
    (l : list A) (k : list B) :
  length k = length l ->
  forallb (fun '(a, b) => f a b) (combine l k) = true
  <-> Forall2 (fun a b => f a b = true) l k.
Proof.
  revert k. induction l as [|a l IH]; intros [|b k] Hlen; cbn in *;
    try discriminate.
  - split; [constructor|reflexivity].
  - rewrite andb_true_iff, IH by lia. split.
    + intros [? ?]. now constructor.
    + now inversion 1.
Qed.

(** [isValidSolution] holds exactly when every value is within the bounds
    of its variable and every constraint is satisfied. *)
Lemma isValidSolution_spec (p : Problem) (s : vec) :
  isValidSolution p s = true
  <-> bounded_by (variables_ p) s
      /\ Forall (fun c => isSatisfied c s = true) (constraints_ p).
Proof.
  unfold isValidSolution, bounded_by.
  destruct (Nat.eqb_spec (length s) (length (variables_ p))) as [Hlen|Hlen];
    cbn [negb].
  - rewrite andb_true_iff, combine_forallb_Forall2, forallb_Forall by exact Hlen.
    reflexivity.
  - split; [discriminate|]. intros [H _]. apply Forall2_length in H. lia.
Qed.

Lemma lower_test_looser (l lo x : double) :
  (x <? dmax l lo - d1e_9) = false -> (x <? l - d1e_9) = false.
Proof.
  unfold dmax, d1e_9. destruct (dlt l lo) eqn:E; [|auto].
  intros H. d_cases; q_solve.
Qed.

Lemma upper_test_looser (u up x : double) :
  (x >? dmin u up + d1e_9) = false -> (x >? u + d1e_9) = false.
Proof.
  unfold dmin, dgt, d1e_9. destruct (dlt up u) eqn:E; [|auto].
  intros H. d_cases; q_solve.
Qed.

Lemma within_bounds_looser (v : Variable_) (lo up x : double) :
  within_bounds (setBounds v (dmax (lower_bound_ v) lo)
                             (dmin (upper_bound_ v) up)) x = true ->
  within_bounds v x = true.
Proof.
  unfold within_bounds. cbn.
  rewrite !negb_true_iff, !orb_false_iff. intros [Hl Hu].
  eauto using lower_test_looser, upper_test_looser.
Qed.

Lemma within_bounds_tighter (v : Variable_) (lo up x : double) :
  within_bounds v x = true ->
  (x <? lo - d1e_9) = false -> (x >? up + d1e_9) = false ->
  within_bounds (setBounds v (dmax (lower_bound_ v) lo)
                             (dmin (upper_bound_ v) up)) x = true.
Proof.
  unfold within_bounds, dmax, dmin. cbn.
  rewrite !negb_true_iff, !orb_false_iff. intros [Hl Hu] Hlo Hup.
  destruct (dlt (lower_bound_ v) lo), (dlt up (upper_bound_ v)); auto.
Qed.

Lemma Forall2_insert_source {A B : Type} `{Inhabited A} (P : A -> B -> Prop)
    (f : A -> A) (l : list A) (k : list B) (i : nat) :
  (forall a b, P (f a) b -> P a b) ->
  Forall2 P (<[i := f (l !!! i)]> l) k -> Forall2 P l k.
Proof.
  intros Hf. revert k i.
  induction l as [|a l IH]; intros k i Hk; [exact Hk|].
  destruct i as [|i]; cbn in Hk; inversion Hk; subst; constructor; eauto.
Qed.

Lemma Forall2_insert_target {A B : Type} `{Inhabited A} (P : A -> B -> Prop)
    (f : A -> A) (l : list A) (k : list B) (i : nat) :
  (forall a b, l !! i = Some a -> k !! i = Some b -> P a b -> P (f a) b) ->
  Forall2 P l k -> Forall2 P (<[i := f (l !!! i)]> l) k.
Proof.
  intros Hf Hlk. revert i Hf.
  induction Hlk as [|a b l k Hab Hlk IH]; intros i Hf; [constructor|].
  destruct i as [|i]; cbn; constructor; auto.
Qed.

Lemma addBound_valid_inv (q : Problem) (k : Z) (lo up : double) (s : vec) :
  isValidSolution (addBound q k lo up) s = true ->
  isValidSolution q s = true.
Proof.
  rewrite !isValidSolution_spec. unfold addBound, getVariable, bounded_by.
  cbn [with_variables variables_ constraints_]. intros [Hb Hc].
  split; [|exact Hc].
  eapply (Forall2_insert_source
            (fun v x => within_bounds v x = true)
            (fun v => setBounds v (dmax (lower_bound_ v) lo)
                                  (dmin (upper_bound_ v) up)));
    [|exact Hb].
  intros v x. apply within_bounds_looser.
Qed.

Lemma descendant_valid (p q : Problem) (s : vec) :
  descendant p q -> isValidSolution q s = true -> isValidSolution p s = true.
Proof. induction 1; eauto using addBound_valid_inv. Qed.

(** X12: branching only removes points: a vector that [isValidSolution]
    accepts for the problem of any node processed by [solve] is accepted
    for the input problem too. *)
Theorem node_solutions_are_input_solutions (limit : Z) (p : Problem)
    (i : nat) (e : log_entry) (s : vec) :
  solve_log limit p !! i = Some e ->
  isValidSolution (problem (log_node e)) s = true ->
  isValidSolution p s = true.
Proof.
  intros He. apply descendant_valid.
  destruct (run_continues limit p) as [st Hrun].
  unfold solve_log in He. rewrite Hrun in He.
  destruct (run_invariant_holds _ _ _ Hrun) as (_ & Hlog & _).
  rewrite Forall_lookup in Hlog. eauto.
Qed.

Lemma Qceiling_le_floor_succ (a : Q) : (Qceiling a <= Qfloor a + 1)%Z.
Proof.
  rewrite <- (Qceiling_Z (Qfloor a + 1)). apply Qceiling_resp_le.
  apply Qlt_le_weak, Qlt_floor.
Qed.

Lemma addBound_valid (q : Problem) (k : nat) (lo up x : double) (s : vec) :
  isValidSolution q s = true ->
  s !! k = Some x ->
  (x <? lo - d1e_9) = false -> (x >? up + d1e_9) = false ->
  isValidSolution (addBound q (Z.of_nat k) lo up) s = true.
Proof.
  rewrite !isValidSolution_spec. unfold addBound, getVariable, bounded_by.
  cbn [with_variables variables_ constraints_]. rewrite Nat2Z.id.
  intros [Hb Hc] Hx Hlo Hup. split; [|exact Hc].
  apply (Forall2_insert_target
           (fun v y => within_bounds v y = true)
           (fun v => setBounds v (dmax (lower_bound_ v) lo)
                                 (dmin (upper_bound_ v) up)));
    [|exact Hb].
  intros v y _ Hy Hv. assert (y = x) by congruence. subst y.
  now apply within_bounds_tighter.
Qed.

(** X13: branching loses no integer point: a vector accepted by
    [isValidSolution] for a node's problem whose value for the branching
    variable is an integer is accepted for the Down child or for the Up
    child, whatever the finite value branched on. *)
Theorem branching_keeps_integer_points (current_node : BBNode)
    (lp : SimplexResult) (k : nat) (a : Q) (z : Z) (s : vec) :
  isValidSolution (problem current_node) s = true ->
  s !! k = Some (Fin (inject_Z z)) ->
  isValidSolution
    (problem (left_child_of current_node lp (Z.of_nat k) (Fin a))) s = true
  \/ isValidSolution
       (problem (right_child_of current_node lp (Z.of_nat k) (Fin a))) s
     = true.
Proof.
  intros Hs Hk. unfold left_child_of, right_child_of. cbn [problem].
  destruct (Z.le_gt_cases z (Qfloor a)) as [Hle|Hgt].
  - left. eapply addBound_valid; eauto.
    cbn. unfold fin. q_prop. rewrite ?Qred_correct.
    rewrite Zle_Qle in Hle. lra.
  - right. eapply addBound_valid; eauto.
    cbn. unfold fin. q_prop. rewrite ?Qred_correct.
    pose proof (Qceiling_le_floor_succ a) as Hc.
    assert (Hz : (Qceiling a <= z)%Z) by lia.
    rewrite Zle_Qle in Hz. lra.
Qed.

(** ** The value branched on is cut off *)

Lemma Qround_half_away_close (a : Q) :
  (a - (1 # 2) <= inject_Z (Qround_half_away a) <= a + (1 # 2))%Q.
Proof.
  unfold Qround_half_away. destruct (Qle_bool 0 a).
  - pose proof (Qfloor_le (a + (1 # 2))) as H1.
    pose proof (Qlt_floor (a + (1 # 2))) as H2.
    rewrite inject_Z_plus in H2. change (inject_Z 1) with 1%Q in H2. lra.
  - pose proof (Qle_ceiling (a - (1 # 2))) as H1.
    pose proof (Qceiling_lt (a - (1 # 2))) as H2.
    unfold Z.sub in H2. rewrite inject_Z_plus in H2.
    change (inject_Z (- (1))) with (- (1))%Q in H2. lra.
Qed.

(** [std::round] gives a nearest integer. *)
Lemma Qround_half_away_nearest (a : Q) (n : Z) :
  (Qabs (a - inject_Z (Qround_half_away a)) <= Qabs (a - inject_Z n))%Q.
Proof.
  pose proof (Qround_half_away_close a) as [H1 H2].
  set (r := Qround_half_away a) in *.
  destruct (Z.eq_dec n r) as [->|Hne]; [lra|].
  assert (Hcases : (n <= r - 1 \/ r + 1 <= n)%Z) by lia.
  apply Qabs_case; intros Hs; apply Qabs_case; intros Hn;
    destruct Hcases as [Hc|Hc]; rewrite Zle_Qle in Hc;
    unfold Z.sub in Hc; rewrite inject_Z_plus in Hc;
    try change (inject_Z (- (1))) with (- (1))%Q in Hc;
    try change (inject_Z 1) with 1%Q in Hc; lra.
Qed.

Lemma fractional_part_gaps (a : Q) (t : Q) :
  (fractional_part (Fin a) >? Fin t) = true ->
  (t < a - inject_Z (Qfloor a))%Q /\ (t < inject_Z (Qceiling a) - a)%Q.
Proof.
  unfold fractional_part, dgt. cbn. unfold fin. intros H. q_prop.
  rewrite !Qred_correct in H.
  pose proof (Qround_half_away_nearest a (Qfloor a)) as Hf.
  pose proof (Qround_half_away_nearest a (Qceiling a)) as Hc.
  pose proof (Qfloor_le a). pose proof (Qle_ceiling a).
  rewrite (Qabs_pos (a - inject_Z (Qfloor a))) in Hf by lra.
  rewrite (Qabs_neg (a - inject_Z (Qceiling a))) in Hc by lra.
  unfold Qminus in *. q_abs. lra.
Qed.

Lemma down_bound_excludes (u : double) (a f t : Q) :
  disnan u = false -> (1 # 1000000000 <= t)%Q -> (t < a - f)%Q ->
  (Fin a >? dmin u (Fin f) + d1e_9) = true.
Proof.
  intros Hu Ht Hgap. unfold dmin, dgt, d1e_9.
  destruct u as [| |b|]; try discriminate; cbn; unfold fin.
  - reflexivity.
  - destruct (Qltb f b) eqn:E; cbn; unfold fin; q_prop;
      rewrite ?Qred_correct in *; lra.
  - q_prop. rewrite ?Qred_correct. lra.
Qed.

Lemma up_bound_excludes (l : double) (a c t : Q) :
  disnan l = false -> (1 # 1000000000 <= t)%Q -> (t < c - a)%Q ->
  (Fin a <? dmax l (Fin c) - d1e_9) = true.
Proof.
  intros Hl Ht Hgap. unfold dmax, d1e_9.
  destruct l as [| |b|]; try discriminate; cbn; unfold fin.
  - q_prop. rewrite ?Qred_correct. lra.
  - destruct (Qltb b c) eqn:E; cbn; unfold fin; q_prop;
      rewrite ?Qred_correct in *; lra.
  - reflexivity.
Qed.

Lemma children_bounds_disjoint (l u y : double) (f c : Q) :
  disnan l = false -> disnan u = false -> disnan y = false ->
  (f + (2 # 1000000000) < c)%Q ->
  (y >? dmin u (Fin f) + d1e_9) = false ->
  (y <? dmax l (Fin c) - d1e_9) = false ->
  False.
Proof.
  unfold dmin, dmax, dgt, d1e_9. intros Hl Hu Hy Hgap Hup Hlo.
  destruct l as [| |lb|], u as [| |ub|], y as [| |yq|]; try discriminate;
    cbn in *; unfold fin in *;
    repeat match goal with
           | H : context [if Qltb ?x ?z then _ else _] |- _ =>
               let E := fresh "E" in destruct (Qltb x z) eqn:E; cbn in H
           end;
    unfold fin in *; try discriminate; q_prop; rewrite ?Qred_correct in *;
    lra.
Qed.

Lemma valid_value_within (q : Problem) (s : vec) (k : nat) (v : Variable_)
    (x : double) :
  isValidSolution q s = true ->
  variables_ q !! k = Some v -> s !! k = Some x ->
  within_bounds v x = true.
Proof.
  rewrite isValidSolution_spec. intros [Hb _] Hv Hx.
  eapply Forall2_lookup_lr in Hb; eauto.
Qed.

(** X14: branching cuts off the value branched on and separates the
    children.  When the variable branched on has bounds that are not NaN
    and its LP value is further than 1e-6 from the nearest integer, no
    vector carrying that value is accepted by [isValidSolution] for the
    Down child or for the Up child, and no vector whose value for that
    variable is a number is accepted for both children. *)
Theorem branching_cuts_fractional_value (current_node : BBNode)
    (lp : SimplexResult) (k : nat) (a : Q) (var : Variable_) (s : vec)
    (y : double) :
  variables_ (problem current_node) !! k = Some var ->
  disnan (lower_bound_ var) = false ->
  disnan (upper_bound_ var) = false ->
  (fractional_part (Fin a) >? d1e_6) = true ->
  s !! k = Some y ->
  (y = Fin a ->
   isValidSolution
     (problem (left_child_of current_node lp (Z.of_nat k) (Fin a))) s = false
   /\ isValidSolution
        (problem (right_child_of current_node lp (Z.of_nat k) (Fin a))) s
      = false)
  /\ (disnan y = false ->
      isValidSolution
        (problem (left_child_of current_node lp (Z.of_nat k) (Fin a))) s
      && isValidSolution
           (problem (right_child_of current_node lp (Z.of_nat k) (Fin a))) s
      = false).
Proof.
  intros Hvar Hl Hu Hfrac Hy.
  destruct (fractional_part_gaps a _ Hfrac) as [Hf Hc].
  destruct (addBound_lookup _ _ _ NInf (dfloor (Fin a)) Hvar) as [Hd _].
  destruct (addBound_lookup _ _ _ (dceil (Fin a)) PInf Hvar) as [Hup _].
  rewrite dmax_NInf in Hd. rewrite dmin_PInf in Hup.
  change (dfloor (Fin a)) with (Fin (inject_Z (Qfloor a))) in Hd.
  change (dceil (Fin a)) with (Fin (inject_Z (Qceiling a))) in Hup.
  change (dfloor (Fin a)) with (Fin (inject_Z (Qfloor a))).
  change (dceil (Fin a)) with (Fin (inject_Z (Qceiling a))).
  unfold left_child_of, right_child_of. cbn [problem]. split.
  - intros ->. split.
    + destruct (isValidSolution _ s) eqn:Hv; [|reflexivity].
      pose proof (valid_value_within _ _ _ _ _ Hv Hd Hy) as Hw.
      unfold within_bounds in Hw.
      cbn [lower_bound_ upper_bound_ setBounds] in Hw.
      rewrite negb_true_iff, orb_false_iff in Hw. destruct Hw as [_ Hw].
      rewrite (down_bound_excludes _ a _ (1 # 1000000)) in Hw;
        [discriminate|exact Hu|lra|exact Hf].
    + destruct (isValidSolution _ s) eqn:Hv; [|reflexivity].
      pose proof (valid_value_within _ _ _ _ _ Hv Hup Hy) as Hw.
      unfold within_bounds in Hw.
      cbn [lower_bound_ upper_bound_ setBounds] in Hw.
      rewrite negb_true_iff, orb_false_iff in Hw. destruct Hw as [Hw _].
      rewrite (up_bound_excludes _ a _ (1 # 1000000)) in Hw;
        [discriminate|exact Hl|lra|exact Hc].
  - intros Hnan.
    destruct (isValidSolution (addBound _ _ NInf _) s) eqn:Hv1;
      [|reflexivity].
    destruct (isValidSolution (addBound _ _ _ PInf) s) eqn:Hv2;
      [|reflexivity].
    exfalso.
    pose proof (valid_value_within _ _ _ _ _ Hv1 Hd Hy) as Hw1.
    pose proof (valid_value_within _ _ _ _ _ Hv2 Hup Hy) as Hw2.
    unfold within_bounds in Hw1, Hw2.
    cbn [lower_bound_ upper_bound_ setBounds] in Hw1, Hw2.
    rewrite negb_true_iff, orb_false_iff in Hw1, Hw2.
    destruct Hw1 as [_ Hw1]. destruct Hw2 as [Hw2 _].
    eapply (children_bounds_disjoint (lower_bound_ var) (upper_bound_ var) y);
      eauto.
    lra.
Qed.
(** ** What the repair leaves alone *)

Lemma collect_adjustable_members (p : Problem) (s : vec)
    (coeffs : gmap Z double) (t : double) (k : Z) :
  k ∈ (collect_adjustable p s coeffs t).1 ->
  in_range k s = true
  /\ exists c, coeffs !! k = Some c
               /\ can_adjust (getVariable p k) (vget s k) t c = true.
Proof.
  unfold collect_adjustable. revert k.
  apply fold_left_invariant
    with (P := fun st : list Z * double =>
                 forall k, k ∈ st.1 ->
                   in_range k s = true
                   /\ exists c, coeffs !! k = Some c
                        /\ can_adjust (getVariable p k) (vget s k) t c = true).
  - intros k Hk. inversion Hk.
  - intros [adj w] [k c] Hin Hadj. apply elem_of_map_to_list in Hin.
    cbn [fst snd] in *.
    destruct (in_range k s && (dabs c >? d1e_9)) eqn:Hsel; [|assumption].
    destruct (can_adjust _ _ _ _) eqn:Hcan; [|assumption].
    apply andb_true_iff in Hsel as [Hk Hbig]. cbn [fst snd].
    intros k' Hk'. apply elem_of_app in Hk' as [Hk'|Hk']; [auto|].
    apply list_elem_of_singleton in Hk'. subst k'. eauto.
Qed.

Lemma fixConstraintViolation_keeps (p : Problem) (s : vec) (c : Constraint)
    (lhs rhs : double) (type : ConstraintType) (i : nat) (x : double) :
  s !! i = Some x ->
  (forall coeff t, coefficients_ c !! Z.of_nat i = Some coeff ->
     can_adjust (getVariable p (Z.of_nat i)) x t coeff = false) ->
  fixConstraintViolation p s c lhs rhs type !! i = Some x.
Proof.
  intros Hx Hpin. unfold fixConstraintViolation.
  destruct (dabs _ <? d1e_9); [exact Hx|].
  pose proof (collect_adjustable_members p s (coefficients_ c)
                (target_change_of type lhs rhs)) as Hmem.
  destruct (collect_adjustable _ _ _ _) as [adj w]. cbn [fst] in Hmem.
  destruct (_ || _); [exact Hx|].
  apply fold_left_invariant with (P := fun s' : vec => s' !! i = Some x);
    [exact Hx|].
  intros s' k Hk Hs'. unfold adjust_variable.
  destruct (coefficients_ c !! k) as [coeff|] eqn:Hc; [|exact Hs'].
  destruct (Hmem k Hk) as (Hr & c' & Hc' & Hcan).
  unfold in_range in Hr. rewrite andb_true_iff, Z.leb_le, Z.ltb_lt in Hr.
  unfold vset. destruct (decide (Z.to_nat k = i)) as [<-|Hne].
  - rewrite Z2Nat.id in Hpin by lia.
    unfold vget in Hcan. rewrite (list_lookup_total_correct _ _ _ Hx) in Hcan.
    rewrite (Hpin _ _ Hc') in Hcan. discriminate.
  - rewrite list_lookup_insert_ne by exact Hne. exact Hs'.
Qed.

Lemma constraint_pass_keeps (p : Problem) (s : vec) (i : nat) (x : double) :
  pinned p i x -> s !! i = Some x -> (constraint_pass p s).1.1 !! i = Some x.
Proof.
  intros Hpin Hx. unfold constraint_pass.
  apply fold_left_invariant
    with (P := fun st : vec * bool * double => st.1.1 !! i = Some x);
    [exact Hx|].
  intros [[s' a] m] c Hc Hs'. unfold check_constraint. cbn [fst snd] in *.
  destruct (violation_of _ _ _ _); [|exact Hs']. cbn [fst snd].
  apply fixConstraintViolation_keeps; [exact Hs'|].
  intros coeff t Hcoeff. eapply Hpin; eauto.
Qed.

Lemma repair_loop_keeps (p : Problem) (i : nat) (x : double) (n : nat) :
  pinned p i x ->
  forall (iter : Z) (s : vec),
    s !! i = Some x -> (repair_loop n iter p s).2 !! i = Some x.
Proof.
  intros Hpin. induction n as [|n IH]; intros iter s Hx; cbn [repair_loop];
    [exact Hx|].
  pose proof (constraint_pass_keeps p s i x Hpin Hx) as Hpass.
  destruct (constraint_pass p s) as [[s' a] m]. cbn [fst snd] in Hpass.
  destruct a; [exact Hpass|].
  destruct ((iter >? 5)%Z && (m >? d1)); [exact Hpass|].
  now apply IH.
Qed.

Lemma solveLPWithBounds_keeps (p : Problem) (i : nat) (v : Variable_) :
  existsb has_infeasible_bounds (variables_ p) = false ->
  variables_ p !! i = Some v ->
  pinned p i (initial_value (objective_type_ p) v) ->
  solution (solveLPWithBounds p) !! i
  = Some (initial_value (objective_type_ p) v).
Proof.
  intros Hb Hv Hpin. unfold solveLPWithBounds. rewrite Hb.
  assert (Hs : (satisfyConstraints p
                  (map (initial_value (objective_type_ p)) (variables_ p))).2
               !! i = Some (initial_value (objective_type_ p) v)).
  { unfold satisfyConstraints.
    pose proof (repair_loop_keeps p i _ MAX_ITERATIONS Hpin 0
                  (map (initial_value (objective_type_ p)) (variables_ p)))
      as H.
    rewrite list_lookup_fmap, Hv in H. specialize (H eq_refl).
    destruct (repair_loop _ _ _ _) as [[| |] s']; exact H. }
  destruct (satisfyConstraints _ _) as [[|] s']; exact Hs.
Qed.

Lemma fixed_value_pinned (v : Variable_) (t coeff : double) :
  (dabs (lower_bound_ v - upper_bound_ v) <? d1e_9) = true ->
  can_adjust v (lower_bound_ v) t coeff = false.
Proof.
  unfold can_adjust, dgt, d1e_9. destruct v as [n ty l u co].
  cbn [lower_bound_ upper_bound_]. intros Hfix.
  destruct l as [| |l|], u as [| |u|]; try discriminate.
  cbn in Hfix. unfold fin in Hfix. q_prop. rewrite ?Qred_correct in Hfix.
  apply Qabs_Qlt_condition in Hfix.
  destruct (dlt d0 (t * coeff)); cbn; unfold fin; q_prop;
    rewrite ?Qred_correct; lra.
Qed.

(** X15: a variable that occurs in no constraint keeps its initial value.
    When no variable has crossed bounds, the LP solution gives every
    variable that has no coefficient in any constraint exactly the value
    of the initial assignment, whatever the repair does to the others. *)
Theorem unconstrained_variable_keeps_initial_value (p : Problem) (i : nat)
    (v : Variable_) :
  existsb has_infeasible_bounds (variables_ p) = false ->
  variables_ p !! i = Some v ->
  (forall c, c ∈ constraints_ p -> coefficients_ c !! Z.of_nat i = None) ->
  solution (solveLPRelaxation p) !! i
  = Some (initial_value (objective_type_ p) v).
Proof.
  intros Hb Hv Hfree. apply solveLPWithBounds_keeps; try assumption.
  intros c coeff t Hc Hcoeff. rewrite (Hfree c Hc) in Hcoeff. discriminate.
Qed.

(** X16: a fixed variable keeps its value.  When no variable has crossed
    bounds, a variable whose bounds differ by less than 1e-9 has the
    value of its lower bound in the LP solution: the repair never moves
    it. *)
Theorem fixed_variable_keeps_value (p : Problem) (i : nat) (v : Variable_) :
  existsb has_infeasible_bounds (variables_ p) = false ->
  variables_ p !! i = Some v ->
  (dabs (lower_bound_ v - upper_bound_ v) <? d1e_9) = true ->
  solution (solveLPRelaxation p) !! i = Some (lower_bound_ v).
Proof.
  intros Hb Hv Hfix.
  assert (Hinit : initial_value (objective_type_ p) v = lower_bound_ v).
  { unfold initial_value. now rewrite Hfix. }
  rewrite <- Hinit. apply solveLPWithBounds_keeps; try assumption.
  intros c coeff t Hc Hcoeff. rewrite Hinit. unfold getVariable.
  rewrite Nat2Z.id, (list_lookup_total_correct _ _ _ Hv).
  now apply fixed_value_pinned.
Qed.
(** ** The contract of an LP result *)

Lemma constraint_sweep_clean (p : Problem) (s : vec) (cs : list Constraint) :
  (forall c, c ∈ cs ->
     violation_of (ctype_ c) (lhs_of (coefficients_ c) s) (rhs_ c) d1e_6
     = None) ->
  forall (a : bool) (m : double),
    fold_left (check_constraint p) cs (s, a, m) = (s, a, m).
Proof.
  induction cs as [|c cs IH]; intros Hclean a m; [reflexivity|].
  cbn [fold_left]. unfold check_constraint at 2.
  rewrite (Hclean c) by apply list_elem_of_here.
  apply IH. intros c' Hc'. apply Hclean. now apply list_elem_of_further.
Qed.

(** X17: a feasible start is returned as it is.  When no variable has
    crossed bounds and the initial assignment violates no constraint by
    more than 1e-6, the LP result is that assignment, reported feasible,
    with the objective computed from it. *)
Theorem feasible_start_is_returned (p : Problem) :
  existsb has_infeasible_bounds (variables_ p) = false ->
  (forall c, c ∈ constraints_ p ->
     violation_of (ctype_ c)
       (lhs_of (coefficients_ c)
          (map (initial_value (objective_type_ p)) (variables_ p)))
       (rhs_ c) d1e_6 = None) ->
  solveLPRelaxation p
  = mkSimplexResult true false false
      (map (initial_value (objective_type_ p)) (variables_ p))
      (calculateObjectiveValue p
         (map (initial_value (objective_type_ p)) (variables_ p)))
      1.
Proof.
  intros Hb Hclean. unfold solveLPRelaxation, solveLPWithBounds.
  rewrite Hb. unfold satisfyConstraints, MAX_ITERATIONS.
  cbn [repair_loop]. unfold constraint_pass.
  now rewrite (constraint_sweep_clean _ _ _ Hclean).
Qed.

(** ** Validity of a vector and edits of the problem *)

Lemma bounded_by_same_bounds (us vs : list Variable_) :
  Forall2 (fun u v => lower_bound_ u = lower_bound_ v
                      /\ upper_bound_ u = upper_bound_ v) us vs ->
  forall s, bounded_by us s <-> bounded_by vs s.
Proof.
  unfold bounded_by, within_bounds.
  induction 1 as [|u v us vs [Hl Hu] _ IH]; intros s; [reflexivity|].
  destruct s as [|x s].
  - split; intros H; inversion H.
  - split; intros H; apply Forall2_cons in H as [Hx Hs];
      apply Forall2_cons; (split; [|now apply IH]).
    + now rewrite <- Hl, <- Hu.
    + now rewrite Hl, Hu.
Qed.

(** X19: [isValidSolution] looks at bounds and constraints only.  Two
    problems whose variables have pairwise the same bounds and which have
    the same constraints accept the same vectors, whatever the types,
    names and objective coefficients of the variables: in particular no
    integrality is checked. *)
Theorem validity_ignores_variable_types (p q : Problem) (s : vec) :
  Forall2 (fun u v => lower_bound_ u = lower_bound_ v
                      /\ upper_bound_ u = upper_bound_ v)
          (variables_ p) (variables_ q) ->
  constraints_ p = constraints_ q ->
  isValidSolution p s = isValidSolution q s.
Proof.
  intros Hv Hc. apply eq_true_iff_eq. rewrite !isValidSolution_spec.
  rewrite Hc. now rewrite (bounded_by_same_bounds _ _ Hv).
Qed.

(** X20: setting an objective coefficient changes the validity of no
    vector: the problem that [setObjectiveCoefficient] returns has the
    constraints of the original and accepts exactly the vectors the
    original accepts. *)
Theorem objective_coefficient_keeps_validity (p p' : Problem) (i : Z)
    (x : double) (s : vec) :
  setObjectiveCoefficient p i x = Done p' ->
  isValidSolution p' s = isValidSolution p s
  /\ constraints_ p' = constraints_ p.
Proof.
  unfold setObjectiveCoefficient.
  destruct ((0 <=? i)%Z && (i <? getNumVariables p)%Z) eqn:Hr;
    intros [= <-]; [|auto].
  split; [|reflexivity]. apply eq_true_iff_eq.
  rewrite !isValidSolution_spec. cbn [variables_ constraints_ with_variables].
  rewrite <- (bounded_by_same_bounds (variables_ p)); [reflexivity|].
  apply (Forall2_insert_self _ (fun v => setCoefficient v x)); auto.
Qed.

Lemma fold_left_ext_in {A B : Type} (f g : A -> B -> A) (l : list B) :
  (forall a b, b ∈ l -> f a b = g a b) ->
  forall a, fold_left f l a = fold_left g l a.
Proof.
  induction l as [|b l IH]; intros Hfg a; [reflexivity|].
  cbn [fold_left]. rewrite (Hfg a b) by apply list_elem_of_here.
  apply IH. intros a' b' Hb'. apply Hfg. now apply list_elem_of_further.
Qed.

Lemma lhs_of_extended (coeffs : gmap Z double) (s : vec) (x : double) :
  coeffs !! Z.of_nat (length s) = None ->
  lhs_of coeffs (s ++ [x]) = lhs_of coeffs s.
Proof.
  intros Hfree. unfold lhs_of. apply fold_left_ext_in.
  intros lhs [k c] Hin. apply elem_of_map_to_list in Hin.
  assert (Hk : k <> Z.of_nat (length s)) by congruence.
  unfold in_range. rewrite length_app. cbn [length].
  destruct (0 <=? k)%Z eqn:H0; [|reflexivity]. cbn [andb].
  apply Z.leb_le in H0.
  destruct (Z.ltb_spec k (Z.of_nat (length s))) as [Hlt|Hge].
  - destruct (Z.ltb_spec k (Z.of_nat (length s + 1))) as [_|?]; [|lia].
    unfold vget. rewrite lookup_total_app_l by lia. reflexivity.
  - destruct (Z.ltb_spec k (Z.of_nat (length s + 1))) as [?|_]; [lia|].
    reflexivity.
Qed.

Lemma combine_app_same {A B : Type} (l1 l2 : list A) (k1 k2 : list B) :
  length l1 = length k1 ->
  combine (l1 ++ l2) (k1 ++ k2) = combine l1 k1 ++ combine l2 k2.
Proof.
  revert k1. induction l1 as [|a l1 IH]; intros [|b k1] Hlen;
    try discriminate; [reflexivity|].
  cbn. f_equal. apply IH. now injection Hlen.
Qed.

Lemma within_bounds_newVariable (name : string) (type : VariableType)
    (x : double) :
  within_bounds (newVariable name type) x = true.
Proof. unfold within_bounds. destruct x; reflexivity. Qed.

(** X21: a variable added to a problem constrains nothing.  [addVariable]
    returns the index the new variable gets, the old number of variables,
    and when no constraint already holds a coefficient under that index,
    a vector extended by any value for the new variable is accepted by
    the extended problem exactly when the vector is accepted by the
    original. *)
Theorem added_variable_constrains_nothing (p : Problem) (name : string)
    (type : VariableType) (s : vec) (x : double) :
  (forall c, c ∈ constraints_ p ->
     coefficients_ c !! getNumVariables p = None) ->
  (addVariable p name type).2 = getNumVariables p
  /\ getVariable (addVariable p name type).1 (addVariable p name type).2
     = newVariable name type
  /\ isValidSolution (addVariable p name type).1 (s ++ [x])
     = isValidSolution p s.
Proof.
  intros Hfree. cbn [addVariable fst snd]. split; [reflexivity|]. split.
  { unfold getVariable, getNumVariables. cbn [variables_].
    rewrite Nat2Z.id. rewrite lookup_total_app_r by lia.
    now rewrite Nat.sub_diag. }
  unfold isValidSolution. cbn [variables_ constraints_].
  rewrite !length_app. cbn [length].
  destruct (Nat.eqb_spec (length s) (length (variables_ p))) as [Hlen|Hlen].
  - destruct (Nat.eqb_spec (length s + 1) (length (variables_ p) + 1));
      [|lia].
    cbn [negb]. rewrite combine_app_same by (symmetry; exact Hlen).
    rewrite forallb_app. cbn [combine forallb].
    rewrite within_bounds_newVariable, !andb_true_r. f_equal.
    apply eq_true_iff_eq. rewrite !forallb_Forall, !Forall_forall.
    split; intros H c Hc; specialize (H c Hc); unfold isSatisfied in *;
      [rewrite lhs_of_extended in H|rewrite lhs_of_extended]; try exact H;
      rewrite Hlen; apply Hfree; exact Hc.
  - destruct (Nat.eqb_spec (length s + 1) (length (variables_ p) + 1));
      [lia|reflexivity].
Qed.
(** ** Repeating a bound *)

Lemma dmax_idempotent (a b : double) : dmax (dmax a b) b = dmax a b.
Proof.
  unfold dmax. destruct (dlt a b) eqn:E; [|now rewrite E].
  destruct (dlt b b) eqn:E'; reflexivity.
Qed.

Lemma dmin_idempotent (a b : double) : dmin (dmin a b) b = dmin a b.
Proof.
  unfold dmin. destruct (dlt b a) eqn:E; [|now rewrite E].
  destruct (dlt b b) eqn:E'; reflexivity.
Qed.

(** X22: bounds compose by intersection.  For a variable of the problem,
    adding the same bounds a second time changes nothing, and adding the
    bounds (-inf, +inf) leaves the problem as it is. *)
Theorem addBound_repeated (p : Problem) (k : nat) (var : Variable_)
    (lower upper : double) :
  variables_ p !! k = Some var ->
  addBound (addBound p (Z.of_nat k) lower upper) (Z.of_nat k) lower upper
  = addBound p (Z.of_nat k) lower upper
  /\ addBound p (Z.of_nat k) NInf PInf = p.
Proof.
  intros Hvar. pose proof (lookup_lt_Some _ _ _ Hvar) as Hlt.
  unfold addBound, getVariable, with_variables.
  cbn [variables_ pname_ objective_type_ constraints_].
  rewrite Nat2Z.id. rewrite (list_lookup_total_correct _ _ _ Hvar). split.
  - rewrite list_lookup_total_insert_eq by exact Hlt.
    rewrite list_insert_insert_eq. unfold setBounds.
    cbn [name_ type_ lower_bound_ upper_bound_ coefficient_].
    now rewrite dmax_idempotent, dmin_idempotent.
  - rewrite dmax_NInf, dmin_PInf.
    destruct p as [n t vs cs]. cbn [variables_ pname_ objective_type_
                                     constraints_] in *.
    f_equal. apply list_insert_id. rewrite Hvar. f_equal.
    now destruct var.
Qed.
(** ** The further properties at concrete inputs *)

(** Settles a condition on every constraint of a concrete problem. *)
Ltac each_constraint :=
  let c := fresh "c" in
  let Hc := fresh "Hc" in
  intros c Hc;
  repeat (apply elem_of_cons in Hc as [->|Hc];
          [vm_compute; reflexivity|]);
  now apply elem_of_nil in Hc.

Lemma better_iff_not_pruned_witness :
  isBetterSolution (Fin 3) (Fin 5) MINIMIZE
  = negb (shouldPrune (Fin 3) (Fin 5) MINIMIZE).
Proof. apply (better_iff_not_pruned (Fin 3) (Fin 5) MINIMIZE); reflexivity. Defined.

Lemma root_infeasible_witness :
  solve 5 tenth_problem
  = mkSolution INFEASIBLE (zeros tenth_problem) (initial_best MINIMIZE) 1.
Proof.
  apply (root_infeasible 5 tenth_problem); [lia|vm_compute; reflexivity].
Defined.

Lemma root_integer_feasible_witness :
  solve 1 zero_cost_problem
  = mkSolution ITERATION_LIMIT (solution (solveLPRelaxation zero_cost_problem))
               (Fin 0) 1.
Proof.
  apply (root_integer_feasible 1 zero_cost_problem 0);
    [lia|vm_compute; reflexivity ..].
Defined.

Lemma continuous_problem_single_node_witness :
  sol_iterations (solve 1000 spare_problem) = 1%Z.
Proof.
  apply (continuous_problem_single_node 1000 spare_problem);
    [lia|reflexivity].
Defined.

Lemma no_iterations_allowed_witness :
  solve 0 branching_problem
  = mkSolution INFEASIBLE (zeros branching_problem) (initial_best MAXIMIZE) 0.
Proof. apply (no_iterations_allowed 0 branching_problem). lia. Defined.

Lemma reported_objective_matches_values_witness :
  sol_objective_value (solve 1000 branching_problem)
  = calculateObjectiveValue branching_problem
      (values (solve 1000 branching_problem)).
Proof.
  apply (reported_objective_matches_values 1000 branching_problem).
  vm_compute. discriminate.
Defined.


Lemma node_solutions_are_input_solutions_witness :
  isValidSolution branching_problem [Fin 3; Fin 1] = true.
Proof.
  eapply (node_solutions_are_input_solutions 1000 branching_problem 2);
    vm_compute; reflexivity.
Defined.

Lemma branching_keeps_integer_points_witness :
  isValidSolution
    (problem (left_child_of (root_node branching_problem)
                (solveLPRelaxation branching_problem) 0 (Fin (3 # 2))))
    [Fin 3; Fin 1] = true
  \/ isValidSolution
       (problem (right_child_of (root_node branching_problem)
                   (solveLPRelaxation branching_problem) 0 (Fin (3 # 2))))
       [Fin 3; Fin 1] = true.
Proof.
  apply (branching_keeps_integer_points (root_node branching_problem)
           (solveLPRelaxation branching_problem) 0 (3 # 2) 3
           [Fin 3; Fin 1]);
    vm_compute; reflexivity.
Defined.

Lemma branching_cuts_fractional_value_witness :
  isValidSolution
    (problem (left_child_of (root_node branching_problem)
                (solveLPRelaxation branching_problem) 0 (Fin (3 # 2))))
    [Fin (3 # 2); Fin (3 # 2)] = false
  /\ isValidSolution
       (problem (right_child_of (root_node branching_problem)
                   (solveLPRelaxation branching_problem) 0 (Fin (3 # 2))))
       [Fin (3 # 2); Fin (3 # 2)] = false.
Proof.
  apply (proj1 (branching_cuts_fractional_value
                  (root_node branching_problem)
                  (solveLPRelaxation branching_problem) 0 (3 # 2)
                  (mkVariable "x" INTEGER (Fin 0) PInf (Fin 3))
                  [Fin (3 # 2); Fin (3 # 2)] (Fin (3 # 2))
                  eq_refl eq_refl eq_refl eq_refl eq_refl)).
  reflexivity.
Defined.

Lemma unconstrained_variable_keeps_initial_value_witness :
  solution (solveLPRelaxation spare_problem) !! 1%nat = Some (Fin 0).
Proof.
  apply (unconstrained_variable_keeps_initial_value spare_problem 1
           (mkVariable "y" CONTINUOUS (Fin 0) (Fin 10) (Fin 1)));
    [reflexivity|reflexivity|each_constraint].
Defined.

Lemma fixed_variable_keeps_value_witness :
  solution (solveLPRelaxation loose_problem) !! 0%nat = Some (Fin (1 # 16)).
Proof.
  apply (fixed_variable_keeps_value loose_problem 0
           (mkVariable "y" CONTINUOUS (Fin (1 # 16)) (Fin (1 # 16)) (Fin 1)));
    vm_compute; reflexivity.
Defined.

Lemma feasible_start_is_returned_witness :
  solveLPRelaxation sentinel_problem
  = mkSimplexResult true false false
      (map (initial_value MINIMIZE) (variables_ sentinel_problem))
      (calculateObjectiveValue sentinel_problem
         (map (initial_value MINIMIZE) (variables_ sentinel_problem)))
      1.
Proof.
  apply (feasible_start_is_returned sentinel_problem);
    [reflexivity|each_constraint].
Defined.


Lemma validity_ignores_variable_types_witness :
  isValidSolution branching_problem [Fin (1 # 2); Fin 0]
  = isValidSolution
      (with_variables branching_problem
         [mkVariable "x" CONTINUOUS (Fin 0) PInf (Fin 0);
          mkVariable "y" CONTINUOUS (Fin 0) PInf (Fin 0)])
      [Fin (1 # 2); Fin 0].
Proof.
  apply (validity_ignores_variable_types branching_problem);
    [repeat constructor|reflexivity].
Defined.

Lemma objective_coefficient_keeps_validity_witness :
  isValidSolution
    (with_variables zero_cost_problem
       [setCoefficient zero_cost_variable (Fin 5)]) [Fin 1]
  = isValidSolution zero_cost_problem [Fin 1].
Proof.
  apply (objective_coefficient_keeps_validity zero_cost_problem _ 0 (Fin 5)).
  reflexivity.
Defined.

Lemma added_variable_constrains_nothing_witness :
  isValidSolution (addVariable tenth_problem "z" INTEGER).1
                  [Fin 0; Fin (1 # 2)]
  = isValidSolution tenth_problem [Fin 0].
Proof.
  apply (added_variable_constrains_nothing tenth_problem "z" INTEGER
           [Fin 0] (Fin (1 # 2))).
  each_constraint.
Defined.

Lemma addBound_repeated_witness :
  addBound (addBound branching_problem 0 (Fin 1) (Fin 3)) 0 (Fin 1) (Fin 3)
  = addBound branching_problem 0 (Fin 1) (Fin 3).
Proof.
  apply (addBound_repeated branching_problem 0
           (mkVariable "x" INTEGER (Fin 0) PInf (Fin 3)) (Fin 1) (Fin 3)).
  reflexivity.
Defined.
